(** * Steering behaviours (src/main.cpp): shallow embedding and properties

    The simulation core of [main.cpp] is embedded function by function.
    The C++ code computes on [float]; the embedding is written once, over
    an interface [Arith] of the arithmetic the code uses, and read at two
    instances:

    - [R_arith]: the real numbers, the data model of the specification
      ("Vector2: ordered pair of two real numbers").  Rounding, infinities
      and NaN are not part of it: an equation or a bound on a magnitude
      that holds here holds for the [float] computation up to rounding
      only ([Limit_rounding_b32]).  It is used where the statement is
      about comparisons and does not rest on exact magnitudes.
    - [b32_arith]: IEEE-754 binary32 with round-to-nearest-even, from the
      standard library's [SpecFloat].  It evaluates, so concrete runs of
      the code are computed with it.

    What the code does by its control flow and its own tests is proved for
    every instance of [Arith], and so for the [float] computation.

    Out-of-range accesses to a [std::vector] are [None] in the option
    monad.  Identity of objects ([&other == &self]) is the index in the
    agent vector. *)

From Stdlib Require Import ZArith List Bool Reals Lra Lia.
From Stdlib Require Import Floats.SpecFloat.
From Stdlib Require Import Sorting.Permutation.
Import ListNotations.

Set Implicit Arguments.

(** ** Arithmetic interface *)

Class Arith (F : Type) : Type := {
  fadd : F -> F -> F;
  fsub : F -> F -> F;
  fmul : F -> F -> F;
  fdiv : F -> F -> F;
  fneg : F -> F;
  sqrtf : F -> F;
  flt : F -> F -> bool;      (* a < b  *)
  feq : F -> F -> bool;      (* a == b *)
  of_int : Z -> F;           (* (float) i, and whole literals such as 24.0f *)
  lit : Z -> nat -> F        (* decimal literal: lit 1 3 is 0.001f *)
}.

(** [cosf], [sinf] of <cmath>, used by [Wander] only. *)
Class Libm (F : Type) : Type := {
  cosf : F -> F;
  sinf : F -> F
}.

Declare Scope flt_scope.
Delimit Scope flt_scope with flt.
Infix "+" := fadd : flt_scope.
Infix "-" := fsub : flt_scope.
Infix "*" := fmul : flt_scope.
Infix "/" := fdiv : flt_scope.
Notation "- a" := (fneg a) : flt_scope.
Notation "a <? b" := (flt a b) : flt_scope.
Notation "a >? b" := (flt b a) : flt_scope.
Notation "a == b" := (feq a b) (at level 70, no associativity) : flt_scope.

(** The option monad: [None] is an out-of-range vector access. *)
Definition obind {A B : Type} (m : option A) (k : A -> option B) : option B :=
  match m with
  | Some a => k a
  | None => None
  end.

Notation "x <- m ;; k" := (obind m (fun x => k))
  (at level 61, m at next level, right associativity).
Notation "' p <- m ;; k" := (obind m (fun x => let p := x in k))
  (at level 61, p pattern, m at next level, right associativity).

(** [v[i]] for a [std::vector] and an [int] index. *)
Definition at_index {A : Type} (v : list A) (i : Z) : option A :=
  if (i <? 0)%Z then None else nth_error v (Z.to_nat i).

(** [v[i] = a] for an index in range. *)
Fixpoint set_nth {A : Type} (v : list A) (i : nat) (a : A) : list A :=
  match v, i with
  | [], _ => []
  | _ :: t, O => a :: t
  | h :: t, S j => h :: set_nth t j a
  end.

Section Steering.

Context {F : Type} {AF : Arith F}.
Local Open Scope flt_scope.

(** ** Data *)

Record Vector2 : Type := mkVector2 { x : F; y : F }.

Record Agent : Type := mkAgent {
  pos : Vector2;
  vel : Vector2;
  acc : Vector2;
  maxSpeed : F;
  maxForce : F;
  pathIndex : Z
}.
(* [Color color] only reaches the drawing code and is left out. *)

Definition zero : Vector2 := {| x := of_int 0; y := of_int 0 |}.

(** ** Basic vector helpers *)

Definition Length (v : Vector2) : F := sqrtf (x v * x v + y v * y v).

Definition Normalize (v : Vector2) : Vector2 :=
  let l := Length v in
  if l == of_int 0 then zero
  else {| x := x v / l; y := y v / l |}.

Definition Scale (v : Vector2) (s : F) : Vector2 :=
  {| x := x v * s; y := y v * s |}.

Definition Add (a b : Vector2) : Vector2 :=
  {| x := x a + x b; y := y a + y b |}.

Definition Sub (a b : Vector2) : Vector2 :=
  {| x := x a - x b; y := y a - y b |}.

Definition Limit (v : Vector2) (max : F) : Vector2 :=
  let l := Length v in
  if l >? max then Scale v (max / l) else v.

(** ** Single-agent behaviours *)

Definition Seek (pos target : Vector2) (maxSpeed : F) : Vector2 :=
  let desired := Sub target pos in
  let desired := Normalize desired in
  Scale desired maxSpeed.

Definition Flee (pos target : Vector2) (maxSpeed : F) : Vector2 :=
  let desired := Sub pos target in
  let desired := Normalize desired in
  Scale desired maxSpeed.

Definition Pursue (pos targetPos targetVel : Vector2) (maxSpeed predictionFactor : F)
  : Vector2 :=
  let toTarget := Sub targetPos pos in
  let dist := Length toTarget in
  let T := dist / (maxSpeed + lit 1 4) * predictionFactor in
  let future := Add targetPos (Scale targetVel T) in
  Seek pos future maxSpeed.

Definition Evade (pos targetPos targetVel : Vector2) (maxSpeed predictionFactor : F)
  : Vector2 :=
  let toTarget := Sub targetPos pos in
  let dist := Length toTarget in
  let T := dist / (maxSpeed + lit 1 4) * predictionFactor in
  let future := Add targetPos (Scale targetVel T) in
  Flee pos future maxSpeed.

Definition Arrive (pos target : Vector2) (maxSpeed slowingRadius : F) : Vector2 :=
  let desired := Sub target pos in
  let dist := Length desired in
  if dist <? lit 1 3 then zero
  else
    let desired := Normalize desired in
    let speed := maxSpeed * (dist / slowingRadius) in
    let speed := if speed >? maxSpeed then maxSpeed else speed in
    Scale desired speed.

(** [Wander] updates [wanderAngle] through its reference parameter: the new
    angle is returned with the force.  [rnd] is the value that
    [GetRandomValue(-100, 100)] returned. *)
Definition Wander {LF : Libm F} (position velocity : Vector2) (maxSpeed wanderAngle : F)
    (rnd : Z) : Vector2 * F :=
  let circleDistance := of_int 50 in
  let circleRadius := of_int 30 in
  let angleChange := lit 5 1 in
  let circleCenter := Normalize velocity in
  let circleCenter :=
    if Length circleCenter <? lit 1 2
    then {| x := of_int 0; y := of_int (-1) |} else circleCenter in
  let circleCenter := Scale circleCenter circleDistance in
  let wanderAngle := wanderAngle + (of_int rnd / of_int 100) * angleChange in
  let displacement :=
    {| x := cosf wanderAngle * circleRadius; y := sinf wanderAngle * circleRadius |} in
  let wanderForce := Add circleCenter displacement in
  (Limit wanderForce maxSpeed, wanderAngle).

(** ** Multi-agent behaviours *)

Definition ArriveSteer (a : Agent) (target : Vector2) (slowingRadius : F) : Vector2 :=
  let desired := Arrive (pos a) target (maxSpeed a) slowingRadius in
  Sub desired (vel a).

(** [futureA], [futureB] of [PredictiveAvoidance]: the position extrapolated
    by [lookAheadTime] with the current velocity. *)
Definition predicted (a : Agent) (lookAheadTime : F) : Vector2 :=
  Add (pos a) (Scale (vel a) lookAheadTime).

Definition PredictiveAvoidance (a b : Agent) (lookAheadTime maxAvoidForce : F)
  : Vector2 :=
  let futureA := predicted a lookAheadTime in
  let futureB := predicted b lookAheadTime in
  let diff := Sub futureA futureB in
  let dist := Length diff in
  let combinedRadius := of_int 24 in
  if (dist <? combinedRadius) && (dist >? lit 1 3) then
    let away := Normalize (Sub futureA futureB) in
    let strength := (combinedRadius - dist) / combinedRadius in
    Scale away (maxAvoidForce * (lit 4 1 + lit 6 1 * strength))
  else zero.

(** [&other == &self].  [self] is a reference: [self_at = Some i] when it
    refers to element [i] of the vector that is iterated (the call in
    [main] passes [agents[i]] and [agents]), [None] when it refers to an
    object outside of it.  [k] is the index of [other]. *)
Definition same_address (self_at : option nat) (k : nat) : bool :=
  match self_at with
  | Some i => Nat.eqb i k
  | None => false
  end.

(** One iteration of the loop of [Separation], on the pair [(steer, count)]. *)
Definition Separation_visit (self_at : option nat) (self : Agent)
    (separationRadius : F) (k : nat) (other : Agent) (st : Vector2 * Z)
  : Vector2 * Z :=
  let '(steer, count) := st in
  if same_address self_at k then st  (* continue *)
  else
    let diff := Sub (pos self) (pos other) in
    let d := Length diff in
    if (d >? of_int 0) && (d <? separationRadius) then
      let away := Normalize diff in
      let factor := (separationRadius - d) / separationRadius in
      (Add steer (Scale away factor), (count + 1)%Z)
    else st.

Fixpoint Separation_loop (self_at : option nat) (self : Agent)
    (separationRadius : F) (k : nat) (agents : list Agent) (st : Vector2 * Z)
  : Vector2 * Z :=
  match agents with
  | [] => st
  | other :: rest =>
      Separation_loop self_at self separationRadius (S k) rest
        (Separation_visit self_at self separationRadius k other st)
  end.

Definition Separation (self_at : option nat) (self : Agent) (agents : list Agent)
    (separationRadius strength : F) : Vector2 :=
  let '(steer, count) :=
    Separation_loop self_at self separationRadius 0 agents (zero, 0%Z) in
  let steer :=
    if (count >? 0)%Z then Scale steer (of_int 1 / of_int count) else steer in
  if Length steer <? lit 1 4 then zero
  else
    let steer := Normalize steer in
    Scale steer strength.

(** One iteration of the loop of [ObstacleAvoidance] for the obstacle of
    centre [c] and radius [obsRadius]. *)
Definition ObstacleAvoidance_visit (agent : Agent) (ahead : Vector2)
    (avoidStrength : F) (c : Vector2) (obsRadius : F) (steer : Vector2) : Vector2 :=
  let r := obsRadius + of_int 8 in
  let dist := Length (Sub ahead c) in
  if dist <? r then
    let away := Normalize (Sub ahead c) in
    let penetration := r - dist in
    Add steer (Scale away (penetration * avoidStrength))
  else
    let nowDist := Length (Sub (pos agent) c) in
    if nowDist <? r then
      let awayNow := Normalize (Sub (pos agent) c) in
      Add steer (Scale awayNow ((r - nowDist) * avoidStrength * lit 8 1))
    else steer.

(** The loop runs over the indices of [obsCenters] and reads [obsRadii[i]]:
    a shorter [obsRadii] is an out-of-range access. *)
Fixpoint ObstacleAvoidance_loop (agent : Agent) (ahead : Vector2)
    (avoidStrength : F) (obsCenters : list Vector2) (obsRadii : list F)
    (steer : Vector2) : option Vector2 :=
  match obsCenters with
  | [] => Some steer
  | c :: cs =>
      match obsRadii with
      | [] => None
      | r0 :: rs =>
          ObstacleAvoidance_loop agent ahead avoidStrength cs rs
            (ObstacleAvoidance_visit agent ahead avoidStrength c r0 steer)
      end
  end.

Definition ahead_point (agent : Agent) (lookAhead : F) : Vector2 :=
  let heading := Normalize (vel agent) in
  let heading :=
    if Length heading <? lit 1 2
    then {| x := of_int 0; y := of_int (-1) |} else heading in
  Add (pos agent) (Scale heading lookAhead).

Definition ObstacleAvoidance (agent : Agent) (obsCenters : list Vector2)
    (obsRadii : list F) (lookAhead avoidStrength : F) : option Vector2 :=
  let ahead := ahead_point agent lookAhead in
  steer <- ObstacleAvoidance_loop agent ahead avoidStrength obsCenters obsRadii zero ;;
  if Length steer <? lit 1 3 then Some zero
  else Some (Limit steer avoidStrength).

Definition WallAvoidance (a : Agent) (screenW screenH margin strength : F) : Vector2 :=
  let sx :=
    if x (pos a) <? margin then strength * (of_int 1 - (x (pos a) / margin))
    else if x (pos a) >? screenW - margin
         then - strength * (of_int 1 - ((screenW - x (pos a)) / margin))
         else of_int 0 in
  let sy :=
    if y (pos a) <? margin then strength * (of_int 1 - (y (pos a) / margin))
    else if y (pos a) >? screenH - margin
         then - strength * (of_int 1 - ((screenH - y (pos a)) / margin))
         else of_int 0 in
  {| x := sx; y := sy |}.

(** [outIndex] is an [int&]: the index after the call is returned with the
    desired velocity.  [path[outIndex]] outside [0 .. size-1] is [None]. *)
Definition PathFollowing (a : Agent) (path : list Vector2) (outIndex : Z)
    (waypointRadius : F) : option (Vector2 * Z) :=
  match path with
  | [] => Some (zero, outIndex)
  | _ :: _ =>
      let size := Z.of_nat (length path) in
      let outIndex := if (outIndex >=? size)%Z then 0%Z else outIndex in
      target <- at_index path outIndex ;;
      let dist := Length (Sub target (pos a)) in
      if dist <? waypointRadius then
        let outIndex := Z.rem (outIndex + 1) size in
        target <- at_index path outIndex ;;
        Some (Arrive (pos a) target (maxSpeed a) (waypointRadius * lit 25 1), outIndex)
      else
        Some (Arrive (pos a) target (maxSpeed a) (waypointRadius * lit 25 1), outIndex)
  end.

(** ** Combining behaviours *)

Fixpoint PrioritySteering (forces : list Vector2) (epsilon : F) : Vector2 :=
  match forces with
  | [] => zero
  | f :: rest => if Length f >? epsilon then f else PrioritySteering rest epsilon
  end.

Definition WeightedBlend (forces : list (Vector2 * F)) (maxForce : F) : Vector2 :=
  let total :=
    fold_left (fun total p => Add total (Scale (fst p) (snd p))) forces zero in
  Limit total maxForce.

(** ** The simulation step of [main]

    The window, the input polling and the drawing are outside of the
    embedding.  What the key handlers set is collected in [Toggles]; the
    tunables that [main] initialises once and never changes are constants. *)

Record Toggles : Type := mkToggles {
  singleAgentMode : bool;
  singleMode : Z;          (* 1=Seek 2=Flee 3=Pursue 4=Evade 5=Arrive 6=Wander *)
  singleCombine : bool;
  enablePathFollowing : bool;
  enableSeparation : bool;
  enablePredictiveAvoid : bool;
  enableObstacleAvoid : bool;
  enableWallAvoid : bool;
  usePriority : bool
}.

Definition screenW : Z := 1800.
Definition screenH : Z := 1000.

Definition vec (a b : Z) : Vector2 := {| x := of_int a; y := of_int b |}.

Definition path : list Vector2 :=
  [ vec 150 120; vec 400 90; vec 800 150; vec 920 300;
    vec 800 520; vec 520 620; vec 240 500; vec 100 350 ].
Definition obsCenters : list Vector2 := [ vec 500 320; vec 300 380; vec 700 460 ].
Definition obsRadii : list F := [ of_int 60; of_int 45; of_int 55 ].

Definition separationRadius : F := of_int 48.
Definition separationStrength : F := lit 9 1.
Definition predictiveLookAhead : F := lit 9 1.
Definition predictiveStrength : F := lit 9 1.
Definition obstacleLookAhead : F := of_int 70.
Definition obstacleStrength : F := lit 12 1.
Definition wallMargin : F := of_int 40.
Definition wallStrength : F := lit 16 1.
Definition pathWaypointRadius : F := of_int 22.

Definition set_acc (a : Agent) (v : Vector2) : Agent :=
  {| pos := pos a; vel := vel a; acc := v;
     maxSpeed := maxSpeed a; maxForce := maxForce a; pathIndex := pathIndex a |}.
Definition set_pathIndex (a : Agent) (i : Z) : Agent :=
  {| pos := pos a; vel := vel a; acc := acc a;
     maxSpeed := maxSpeed a; maxForce := maxForce a; pathIndex := i |}.
Definition set_vel (a : Agent) (v : Vector2) : Agent :=
  {| pos := pos a; vel := v; acc := acc a;
     maxSpeed := maxSpeed a; maxForce := maxForce a; pathIndex := pathIndex a |}.
Definition set_pos (a : Agent) (p : Vector2) : Agent :=
  {| pos := p; vel := vel a; acc := acc a;
     maxSpeed := maxSpeed a; maxForce := maxForce a; pathIndex := pathIndex a |}.

(** *** Single-agent branch *)

(** The desired velocity [steering] and the wander angle after it.
    [target] is the mouse position of the frame, [mouseVel] its difference
    to the previous frame, [rnd] the random value of the frame. *)
Definition single_steering {LF : Libm F} (tg : Toggles) (player : Agent)
    (wanderAngle : F) (target mouseVel : Vector2) (rnd : Z) : Vector2 * F :=
  if singleCombine tg then
    let '(wanderF, wanderAngle) :=
      Wander (pos player) (vel player) (maxSpeed player) wanderAngle rnd in
    let seekF := Seek (pos player) target (maxSpeed player) in
    (WeightedBlend [ (wanderF, lit 6 1); (seekF, of_int 1) ]
       (maxForce player * of_int 2), wanderAngle)
  else
    match singleMode tg with
    | 1%Z => (Seek (pos player) target (maxSpeed player), wanderAngle)
    | 2%Z => (Flee (pos player) target (maxSpeed player), wanderAngle)
    | 3%Z => (Pursue (pos player) target mouseVel (maxSpeed player) (lit 8 1), wanderAngle)
    | 4%Z => (Evade (pos player) target mouseVel (maxSpeed player) (lit 8 1), wanderAngle)
    | 5%Z => (Arrive (pos player) target (maxSpeed player) (of_int 140), wanderAngle)
    | 6%Z => Wander (pos player) (vel player) (maxSpeed player) wanderAngle rnd
    | _ => (zero, wanderAngle)
    end.

(** [steerVec]: the force that is added to the velocity. *)
Definition single_steerVec (player : Agent) (steering : Vector2) : Vector2 :=
  let steerVec := Sub steering (vel player) in
  Limit steerVec (maxForce player).

(** "keep inside screen" *)
Definition keep_inside (p : Vector2) : Vector2 :=
  let px := if x p <? of_int 0 then of_int 0 else x p in
  let py := if y p <? of_int 0 then of_int 0 else y p in
  let px := if px >? of_int screenW then of_int screenW else px in
  let py := if py >? of_int screenH then of_int screenH else py in
  {| x := px; y := py |}.

Definition single_integrate (player : Agent) (steerVec : Vector2) : Agent :=
  let player := set_vel player (Add (vel player) steerVec) in
  let player := set_vel player (Limit (vel player) (maxSpeed player)) in
  let player := set_pos player (Add (pos player) (vel player)) in
  set_pos player (keep_inside (pos player)).

Definition singleStep {LF : Libm F} (tg : Toggles) (player : Agent) (wanderAngle : F)
    (target mouseVel : Vector2) (rnd : Z) : Agent * F :=
  let '(steering, wanderAngle) :=
    single_steering tg player wanderAngle target mouseVel rnd in
  (single_integrate player (single_steerVec player steering), wanderAngle).

(** *** Multi-agent branch *)

(** The inner loop over [j] that sums [PredictiveAvoidance(a, agents[j])]
    for [j != i]; [j] is the index of the head of [agents]. *)
Fixpoint PredictiveAvoidance_sum (a : Agent) (i j : nat) (agents : list Agent)
    (steerPredict : Vector2) : Vector2 :=
  match agents with
  | [] => steerPredict
  | b :: rest =>
      PredictiveAvoidance_sum a i (S j) rest
        (if Nat.eqb i j then steerPredict
         else Add steerPredict
                (PredictiveAvoidance a b predictiveLookAhead predictiveStrength))
  end.

(** "simple wrap-around prevention" *)
Definition wrap_around (p : Vector2) : Vector2 :=
  let px := if x p <? of_int (-60) then of_int (screenW + 60) else x p in
  let px := if px >? of_int (screenW + 60) then of_int (-60) else px in
  let py := if y p <? of_int (-60) then of_int (screenH + 60) else y p in
  let py := if py >? of_int (screenH + 60) then of_int (-60) else py in
  {| x := px; y := py |}.

(** The body of the loop over [i] up to the last assignment of
    [finalSteer].  [a] is the reference [agents[i]]: what is written
    through it ([acc], [pathIndex]) is written to the vector, which the
    pairwise behaviours then read.  The result is the vector, the agent and
    the force that is applied. *)
Definition agent_forces (tg : Toggles) (agents : list Agent) (i : nat)
  : option (list Agent * Agent * Vector2) :=
  a <- nth_error agents i ;;
  let a := set_acc a zero in
  ' (steerPath, a) <-
    (if enablePathFollowing tg then
       ' (desired, idx) <- PathFollowing a path (pathIndex a) pathWaypointRadius ;;
       let a := set_pathIndex a idx in
       Some (Sub desired (vel a), a)
     else Some (zero, a)) ;;
  let agents := set_nth agents i a in
  let steerSep :=
    if enableSeparation tg
    then Separation (Some i) a agents separationRadius separationStrength
    else zero in
  let steerPredict :=
    if enablePredictiveAvoid tg
    then PredictiveAvoidance_sum a i 0 agents zero
    else zero in
  steerObs <-
    (if enableObstacleAvoid tg
     then ObstacleAvoidance a obsCenters obsRadii obstacleLookAhead obstacleStrength
     else Some zero) ;;
  let steerWall :=
    if enableWallAvoid tg
    then WallAvoidance a (of_int screenW) (of_int screenH) wallMargin wallStrength
    else zero in
  let finalSteer :=
    if usePriority tg then
      PrioritySteering
        [ Limit (Add (Scale steerObs (of_int 2)) (Scale steerWall (lit 18 1))) (maxForce a);
          Limit (Add (Scale steerPredict (lit 14 1)) (Scale steerSep (lit 12 1))) (maxForce a);
          Limit (Scale steerPath (lit 9 1)) (maxForce a) ]
        (lit 1 3)
    else
      WeightedBlend
        [ (steerObs, lit 18 1); (steerWall, lit 14 1); (steerPredict, lit 12 1);
          (steerSep, of_int 1); (steerPath, lit 9 1) ]
        (maxForce a) in
  let finalSteer := Limit finalSteer (maxForce a) in
  Some (agents, a, finalSteer).

(** "Apply as acceleration-like steering" and the wrap-around. *)
Definition agent_integrate (a : Agent) (finalSteer : Vector2) : Agent :=
  let a := set_vel a (Add (vel a) finalSteer) in
  let a := set_vel a (Limit (vel a) (maxSpeed a)) in
  let a := set_pos a (Add (pos a) (vel a)) in
  set_pos a (wrap_around (pos a)).

(** One iteration of [for (size_t i = 0; i < agents.size(); ++i)]. *)
Definition agentStep (tg : Toggles) (agents : list Agent) (i : nat)
  : option (list Agent) :=
  ' (agents, a, finalSteer) <- agent_forces tg agents i ;;
  Some (set_nth agents i (agent_integrate a finalSteer)).

Fixpoint agents_loop (tg : Toggles) (indices : list nat) (agents : list Agent)
  : option (list Agent) :=
  match indices with
  | [] => Some agents
  | i :: rest => agents <- agentStep tg agents i ;; agents_loop tg rest agents
  end.

(** The multi-agent branch of one frame. *)
Definition multiTick (tg : Toggles) (agents : list Agent) : option (list Agent) :=
  agents_loop tg (seq 0 (length agents)) agents.

End Steering.

Arguments Vector2 F : clear implicits.
Arguments Agent F : clear implicits.

(** ** The two arithmetics *)

(** *** Real numbers *)

Definition Rltb (a b : R) : bool := if Rlt_dec a b then true else false.
Definition Reqb (a b : R) : bool := if Req_dec_T a b then true else false.

#[export] Instance R_arith : Arith R := {|
  fadd := Rplus;
  fsub := Rminus;
  fmul := Rmult;
  fdiv := Rdiv;
  fneg := Ropp;
  sqrtf := sqrt;
  flt := Rltb;
  feq := Reqb;
  of_int := IZR;
  lit := fun m e => (IZR m / IZR (10 ^ Z.of_nat e))%R
|}.

#[export] Instance R_libm : Libm R := {| cosf := cos; sinf := sin |}.

(** *** IEEE-754 binary32

    [prec = 24], [emax = 128]; every operation rounds to nearest, ties to
    even, as a C++ implementation does that evaluates [float] expressions
    in [float].  A decimal literal is the correctly rounded quotient of two
    integers that binary32 represents exactly. *)

Definition b32 : Type := spec_float.
Definition b32_of_Z (z : Z) : b32 := binary_normalize 24 128 z 0 false.

#[export] Instance b32_arith : Arith b32 := {|
  fadd := SFadd 24 128;
  fsub := SFsub 24 128;
  fmul := SFmul 24 128;
  fdiv := SFdiv 24 128;
  fneg := SFopp;
  sqrtf := SFsqrt 24 128;
  flt := SFltb;
  feq := SFeqb;
  of_int := b32_of_Z;
  lit := fun m e => SFdiv 24 128 (b32_of_Z m) (b32_of_Z (10 ^ Z.of_nat e))
|}.

Unset Implicit Arguments.

(** ** Concrete data *)

(** Concrete data for the examples: the toggles as [main] initialises them
    (single-agent mode left), and an agent with the limits of [main]. *)
Definition demo_toggles : Toggles :=
  {| singleAgentMode := false; singleMode := 1; singleCombine := false;
     enablePathFollowing := true; enableSeparation := true;
     enablePredictiveAvoid := true; enableObstacleAvoid := true;
     enableWallAvoid := true; usePriority := true |}.

Definition demo_agent {F : Type} {AF : Arith F} (px py vx vy : Z) : Agent F :=
  {| pos := vec px py; vel := vec vx vy; acc := zero;
     maxSpeed := lit 24 1; maxForce := lit 14 2; pathIndex := 0 |}.

(** Decimal literals of the real arithmetic as quotients of integers. *)
Ltac real_literals :=
  repeat match goal with
  | |- context [@lit R R_arith ?m ?e] =>
      let v := eval vm_compute in (10 ^ Z.of_nat e)%Z in
      change (@lit R R_arith m e) with (IZR m / IZR v)%R
  end.


(** Two distinct elements of the vector at one position. *)
Definition self_c : Agent R := demo_agent 100 100 1 0.
Definition peer_c : Agent R := demo_agent 100 100 (-1) 1.

(** A neighbour at distance 5. *)
Definition self_o : Agent R := demo_agent 0 0 1 0.
Definition near_o : Agent R := demo_agent 3 4 1 0.




(** An agent at rest at (0, 3): its look-ahead point for [lookAhead = 9] is
    (0, -6), on the other side of an obstacle centred at (0, 0). *)
Definition inside_agent : Agent R := demo_agent 0 3 0 0.

(** The loop body of [ObstacleAvoidance] as the specification words it:
    the look-ahead test, and "additionally, independently" the test of the
    current position, each adding its push.  It is compared with
    [ObstacleAvoidance_visit], the loop body of the code. *)
Definition ObstacleAvoidance_visit_independent {F : Type} {AF : Arith F}
    (agent : Agent F) (ahead : Vector2 F) (avoidStrength : F) (c : Vector2 F)
    (obsRadius : F) (steer : Vector2 F) : Vector2 F :=
  let r := (obsRadius + of_int 8)%flt in
  let dist := Length (Sub ahead c) in
  let steer :=
    if (dist <? r)%flt
    then Add steer (Scale (Normalize (Sub ahead c)) ((r - dist) * avoidStrength)%flt)
    else steer in
  let nowDist := Length (Sub (pos agent) c) in
  if (nowDist <? r)%flt
  then Add steer (Scale (Normalize (Sub (pos agent) c))
                    ((r - nowDist) * avoidStrength * lit 8 1)%flt)
  else steer.

(** The operations and the constants of the real arithmetic, in the goal
    and in the hypotheses, without unfolding the functions of the code. *)
Ltac real_consts :=
  cbn [of_int fadd fsub fmul fdiv fneg sqrtf flt feq R_arith] in *;
  repeat match goal with
  | |- context [@lit R R_arith ?m ?e] =>
      let v := eval vm_compute in (10 ^ Z.of_nat e)%Z in
      change (@lit R R_arith m e) with (IZR m / IZR v)%R
  | H : context [@lit R R_arith ?m ?e] |- _ =>
      let v := eval vm_compute in (10 ^ Z.of_nat e)%Z in
      change (@lit R R_arith m e) with (IZR m / IZR v)%R in H
  end.

(** Evaluation of closed real expressions, up to the integer constants. *)
Ltac real_eval := cbn -[IZR].
Ltac length_is := unfold Length; real_eval; apply sqrt_lem_1; lra.

(** ** The rest of [main]: set-up, input, frame loop, triangle *)

Section MainLoop.

Context {F : Type} {AF : Arith F}.
Local Open Scope flt_scope.

(** One iteration of the set-up loop of [main].  The arguments are the
    values that the six calls of [GetRandomValue] returned, in the order of
    the calls: [GetRandomValue(80, screenW - 80)], [(80, screenH - 80)],
    twice [(-50, 50)], [(0, 30)] and [(0, path.size() - 1)]. *)
Definition init_agent (rx ry rvx rvy rs rp : Z) : Agent F :=
  {| pos := {| x := of_int rx; y := of_int ry |};
     vel := {| x := of_int rvx / of_int 10; y := of_int rvy / of_int 10 |};
     acc := zero;
     maxSpeed := lit 24 1 + (of_int rs / of_int 100);
     maxForce := lit 14 2;
     pathIndex := rp |}.

(** What [GetRandomValue(lo, hi)] promises for the six values. *)
Definition random_in_range (rx ry rvx rvy rs rp : Z) : Prop :=
  (80 <= rx <= screenW - 80)%Z /\ (80 <= ry <= screenH - 80)%Z /\
  (-50 <= rvx <= 50)%Z /\ (-50 <= rvy <= 50)%Z /\
  (0 <= rs <= 30)%Z /\ (0 <= rp <= Z.of_nat (length (path (F := F))) - 1)%Z.

(** The set-up loop, for the list of the random values of its iterations
    ([AGENT_COUNT] of them in [main]). *)
Definition init_agents (rs : list (Z * Z * Z * Z * Z * Z)) : list (Agent F) :=
  map (fun '(rx, ry, rvx, rvy, rs, rp) => init_agent rx ry rvx rvy rs rp) rs.

Definition randoms_in_range (r : Z * Z * Z * Z * Z * Z) : Prop :=
  let '(rx, ry, rvx, rvy, rs, rp) := r in random_in_range rx ry rvx rvy rs rp.

(** The keys that [IsKeyPressed] reports in one frame. *)
Record Keys : Type := mkKeys {
  KEY_TAB : bool;
  KEY_ONE : bool;
  KEY_TWO : bool;
  KEY_THREE : bool;
  KEY_FOUR : bool;
  KEY_FIVE : bool;
  KEY_SIX : bool;
  KEY_D : bool;
  KEY_P : bool;
  KEY_B : bool
}.

Definition no_key : Keys :=
  mkKeys false false false false false false false false false false.

(** The toggles with [drawDebug], which only the drawing reads. *)
Record Ui : Type := mkUi { toggles : Toggles; drawDebug : bool }.

Definition set_singleAgentMode (tg : Toggles) (b : bool) : Toggles :=
  mkToggles b (singleMode tg) (singleCombine tg) (enablePathFollowing tg)
    (enableSeparation tg) (enablePredictiveAvoid tg) (enableObstacleAvoid tg)
    (enableWallAvoid tg) (usePriority tg).
Definition set_singleMode (tg : Toggles) (m : Z) : Toggles :=
  mkToggles (singleAgentMode tg) m (singleCombine tg) (enablePathFollowing tg)
    (enableSeparation tg) (enablePredictiveAvoid tg) (enableObstacleAvoid tg)
    (enableWallAvoid tg) (usePriority tg).
Definition set_singleCombine (tg : Toggles) (b : bool) : Toggles :=
  mkToggles (singleAgentMode tg) (singleMode tg) b (enablePathFollowing tg)
    (enableSeparation tg) (enablePredictiveAvoid tg) (enableObstacleAvoid tg)
    (enableWallAvoid tg) (usePriority tg).
Definition set_enablePathFollowing (tg : Toggles) (b : bool) : Toggles :=
  mkToggles (singleAgentMode tg) (singleMode tg) (singleCombine tg) b
    (enableSeparation tg) (enablePredictiveAvoid tg) (enableObstacleAvoid tg)
    (enableWallAvoid tg) (usePriority tg).
Definition set_enableSeparation (tg : Toggles) (b : bool) : Toggles :=
  mkToggles (singleAgentMode tg) (singleMode tg) (singleCombine tg)
    (enablePathFollowing tg) b (enablePredictiveAvoid tg) (enableObstacleAvoid tg)
    (enableWallAvoid tg) (usePriority tg).
Definition set_enablePredictiveAvoid (tg : Toggles) (b : bool) : Toggles :=
  mkToggles (singleAgentMode tg) (singleMode tg) (singleCombine tg)
    (enablePathFollowing tg) (enableSeparation tg) b (enableObstacleAvoid tg)
    (enableWallAvoid tg) (usePriority tg).
Definition set_enableObstacleAvoid (tg : Toggles) (b : bool) : Toggles :=
  mkToggles (singleAgentMode tg) (singleMode tg) (singleCombine tg)
    (enablePathFollowing tg) (enableSeparation tg) (enablePredictiveAvoid tg) b
    (enableWallAvoid tg) (usePriority tg).
Definition set_enableWallAvoid (tg : Toggles) (b : bool) : Toggles :=
  mkToggles (singleAgentMode tg) (singleMode tg) (singleCombine tg)
    (enablePathFollowing tg) (enableSeparation tg) (enablePredictiveAvoid tg)
    (enableObstacleAvoid tg) b (usePriority tg).
Definition set_usePriority (tg : Toggles) (b : bool) : Toggles :=
  mkToggles (singleAgentMode tg) (singleMode tg) (singleCombine tg)
    (enablePathFollowing tg) (enableSeparation tg) (enablePredictiveAvoid tg)
    (enableObstacleAvoid tg) (enableWallAvoid tg) b.

(** [if (IsKeyPressed(key)) { if (singleAgentMode) singleMode = m; else
    flag = !flag; }] *)
Definition digit_key (pressed : bool) (m : Z) (flag : Toggles -> bool)
    (set_flag : Toggles -> bool -> Toggles) (tg : Toggles) : Toggles :=
  if pressed then
    if singleAgentMode tg then set_singleMode tg m
    else set_flag tg (negb (flag tg))
  else tg.

(** "Input toggles", in the order of the statements. *)
Definition handle_input (k : Keys) (u : Ui) : Ui :=
  let tg := toggles u in
  let tg := if KEY_TAB k then set_singleAgentMode tg (negb (singleAgentMode tg)) else tg in
  let tg := digit_key (KEY_ONE k) 1 enablePathFollowing set_enablePathFollowing tg in
  let tg := digit_key (KEY_TWO k) 2 enableSeparation set_enableSeparation tg in
  let tg := digit_key (KEY_THREE k) 3 enablePredictiveAvoid set_enablePredictiveAvoid tg in
  let tg := digit_key (KEY_FOUR k) 4 enableObstacleAvoid set_enableObstacleAvoid tg in
  let tg := digit_key (KEY_FIVE k) 5 enableWallAvoid set_enableWallAvoid tg in
  let tg :=
    if KEY_SIX k then (if singleAgentMode tg then set_singleMode tg 6 else tg)
    else tg in
  let dbg := if KEY_D k then negb (drawDebug u) else drawDebug u in
  let tg := if KEY_P k then set_usePriority tg (negb (usePriority tg)) else tg in
  let tg := if KEY_B k then set_singleCombine tg (negb (singleCombine tg)) else tg in
  {| toggles := tg; drawDebug := dbg |}.

(** The state that one pass of the [while] loop reads and writes. *)
Record World : Type := mkWorld {
  ui : Ui;
  player : Agent F;
  wanderAngle : F;
  mousePrev : Vector2 F;
  mouseVel : Vector2 F;
  agents : list (Agent F)
}.

(** One pass of the [while] loop up to the drawing.  [k], [mouse] and
    [rnd] are what [IsKeyPressed], [GetMousePosition] and
    [GetRandomValue(-100, 100)] return in the frame. *)
Definition frame {LF : Libm F} (k : Keys) (mouse : Vector2 F) (rnd : Z) (w : World)
  : option World :=
  let u := handle_input k (ui w) in
  let target := mouse in
  let mNow := target in
  let mouseVel := Sub mNow (mousePrev w) in
  let mousePrev := mNow in
  if singleAgentMode (toggles u) then
    let '(player, wanderAngle) :=
      singleStep (toggles u) (player w) (wanderAngle w) target mouseVel rnd in
    Some {| ui := u; player := player; wanderAngle := wanderAngle;
            mousePrev := mousePrev; mouseVel := mouseVel; agents := agents w |}
  else
    agents <- multiTick (toggles u) (agents w) ;;
    Some {| ui := u; player := player w; wanderAngle := wanderAngle w;
            mousePrev := mousePrev; mouseVel := mouseVel; agents := agents |}.

(** The [while] loop over the frames whose inputs are listed. *)
Fixpoint run_frames {LF : Libm F} (inputs : list (Keys * Vector2 F * Z)) (w : World)
  : option World :=
  match inputs with
  | [] => Some w
  | (k, mouse, rnd) :: rest => w <- frame k mouse rnd w ;; run_frames rest w
  end.

(** The corners [r1], [r2], [r3] that [DrawAgentTriangle] passes to
    [DrawTriangle]; [atan2f] is the function of <cmath>. *)
Definition DrawAgentTriangle_points {LF : Libm F} (atan2f : F -> F -> F)
    (pos vel : Vector2 F) : Vector2 F * Vector2 F * Vector2 F :=
  let heading :=
    if Length vel <? lit 1 2 then of_int 0 else atan2f (y vel) (x vel) in
  let forward := of_int 20 in
  let halfBase := of_int 12 in
  let p1 := {| x := forward; y := of_int 0 |} in
  let p2 := {| x := - halfBase; y := halfBase * lit 7 1 |} in
  let p3 := {| x := - halfBase; y := - halfBase * lit 7 1 |} in
  let s := sinf heading in
  let c := cosf heading in
  let rot := fun p : Vector2 F =>
    {| x := x pos + (x p * c - y p * s); y := y pos + (x p * s + y p * c) |} in
  (rot p1, rot p2, rot p3).

End MainLoop.

(** ** The parts of [Separation] *)

Section SeparationParts.

Context {F : Type} {AF : Arith F}.
Local Open Scope flt_scope.

(** The condition of one iteration of the loop of [Separation] to add to
    the accumulation: [other], at index [j], is not [self]
    ([&other == &self] fails), and its distance passes both tests
    [d > 0 && d < separationRadius]. *)
Definition Separation_counts (self_at : option nat) (self : Agent F)
    (separationRadius : F) (j : nat) (other : Agent F) : bool :=
  negb (same_address self_at j) &&
  ((Length (Sub (pos self) (pos other)) >? of_int 0) &&
   (Length (Sub (pos self) (pos other)) <? separationRadius)).

(** What such an iteration does to the pair [(steer, count)]. *)
Definition Separation_add (self : Agent F) (separationRadius : F)
    (st : Vector2 F * Z) (other : Agent F) : Vector2 F * Z :=
  let diff := Sub (pos self) (pos other) in
  let d := Length diff in
  let away := Normalize diff in
  let factor := (separationRadius - d) / separationRadius in
  (Add (fst st) (Scale away factor), (snd st + 1)%Z).

(** The statements of [Separation] after the loop. *)
Definition Separation_finish (st : Vector2 F * Z) (strength : F) : Vector2 F :=
  let '(steer, count) := st in
  let steer :=
    if (count >? 0)%Z then Scale steer (of_int 1 / of_int count) else steer in
  if Length steer <? lit 1 4 then zero
  else
    let steer := Normalize steer in
    Scale steer strength.

(** The elements of the agent vector with their indices. *)
Definition indexed (k : nat) (agents : list (Agent F)) : list (nat * Agent F) :=
  combine (seq k (length agents)) agents.

End SeparationParts.

(** ** Exact comparison of binary32 values *)

(** A finite binary32 number as [(m, e)], of value [m * 2^e]. *)
Definition b32_exact (f : b32) : option (Z * Z) :=
  match f with
  | S754_zero _ => Some (0%Z, 0%Z)
  | S754_finite s m e => Some (if s then Z.neg m else Z.pos m, e)
  | _ => None
  end.

(** [x^2 + y^2 > m^2] for the values themselves, computed on integers
    without rounding; [false] when one of them is not finite. *)
Definition exact_longer (v : Vector2 b32) (m : b32) : bool :=
  match b32_exact (x v), b32_exact (y v), b32_exact m with
  | Some (mx, ex), Some (my, ey), Some (mm, em) =>
      let e := Z.min (2 * ex) (Z.min (2 * ey) (2 * em)) in
      (mm * mm * 2 ^ (2 * em - e)
       <? mx * mx * 2 ^ (2 * ex - e) + my * my * 2 ^ (2 * ey - e))%Z
  | _, _, _ => false
  end.



(** A world in multi-agent mode with two agents, and a frame without
    keys. *)
Definition demo_world : World (F := R) :=
  {| ui := {| toggles := demo_toggles; drawDebug := true |};
     player := demo_agent 500 400 0 0;
     wanderAngle := 0%R;
     mousePrev := vec 0 0;
     mouseVel := vec 0 0;
     agents := [demo_agent 100 100 1 0; demo_agent 110 105 (-1) 1] |}.

(** Random values of two iterations of the set-up loop. *)
Definition demo_randoms : list (Z * Z * Z * Z * Z * Z) :=
  [ (80, 920, 50, -50, 30, 7); (1720, 80, 0, 0, 0, 0) ]%Z.

(** * Properties *)

(** ** Facts that hold in every arithmetic *)

Section ControlFlow.

Context {F : Type} {AF : Arith F}.

Lemma length_set_nth (A : Type) (v : list A) (i : nat) (a : A) :
  length (set_nth v i a) = length v.
Proof.
  revert i; induction v as [|h t IH]; intros [|j]; simpl; auto.
Qed.

Lemma nth_error_set_nth_eq (A : Type) (v : list A) (i : nat) (a : A) :
  (i < length v)%nat -> nth_error (set_nth v i a) i = Some a.
Proof.
  revert i; induction v as [|h t IH]; intros [|j] Hlt; simpl in *; try lia; auto.
  apply IH; lia.
Qed.

Lemma nth_error_set_nth_neq (A : Type) (v : list A) (i j : nat) (a : A) :
  i <> j -> nth_error (set_nth v i a) j = nth_error v j.
Proof.
  revert i j; induction v as [|h t IH]; intros [|i] [|j] Hne; simpl; auto;
    try congruence.
Qed.

Lemma set_nth_set_nth (A : Type) (v : list A) (i : nat) (a b : A) :
  set_nth (set_nth v i a) i b = set_nth v i b.
Proof.
  revert i; induction v as [|h t IH]; intros [|j]; simpl; auto.
  now rewrite IH.
Qed.

Lemma at_index_in_range (A : Type) (v : list A) (i : Z) :
  (0 <= i < Z.of_nat (length v))%Z -> exists a, at_index v i = Some a.
Proof.
  intros [Hlo Hhi]. unfold at_index.
  destruct (Z.ltb_spec i 0) as [Hneg|_]; [lia|].
  destruct (nth_error v (Z.to_nat i)) as [a|] eqn:E; [now exists a|].
  apply nth_error_None in E. lia.
Qed.

(** With an index that is not negative, [PathFollowing] reads the path in
    range, and the index it leaves is in range. *)
Lemma PathFollowing_defined (a : Agent F) (path : list (Vector2 F)) (outIndex : Z)
    (waypointRadius : F) :
  path <> [] -> (0 <= outIndex)%Z ->
  exists desired idx,
    PathFollowing a path outIndex waypointRadius = Some (desired, idx) /\
    (0 <= idx < Z.of_nat (length path))%Z.
Proof.
  intros Hne Hidx. unfold PathFollowing.
  destruct path as [|p ps]; [congruence|].
  set (size := Z.of_nat (length (p :: ps))).
  assert (Hsize : (0 < size)%Z) by (unfold size; simpl; lia).
  set (i1 := if (outIndex >=? size)%Z then 0%Z else outIndex).
  assert (Hi1 : (0 <= i1 < size)%Z).
  { unfold i1. destruct (Z.geb_spec outIndex size); lia. }
  destruct (at_index_in_range _ (p :: ps) i1 Hi1) as [t1 Ht1].
  rewrite Ht1. cbn [obind].
  destruct (flt (Length (Sub t1 (pos a))) waypointRadius).
  - assert (Hi2 : (0 <= Z.rem (i1 + 1) size < size)%Z).
    { split; [apply Z.rem_nonneg; lia|apply Z.rem_bound_pos; lia]. }
    destruct (at_index_in_range _ (p :: ps) _ Hi2) as [t2 Ht2].
    rewrite Ht2. cbn [obind]. eauto.
  - eauto.
Qed.

Lemma ObstacleAvoidance_loop_defined (agent : Agent F) (ahead : Vector2 F)
    (avoidStrength : F) (centers : list (Vector2 F)) :
  forall (radii : list F) (steer : Vector2 F),
    (length centers <= length radii)%nat ->
    exists s, ObstacleAvoidance_loop agent ahead avoidStrength centers radii steer = Some s.
Proof.
  induction centers as [|c cs IH]; intros radii steer Hlen; simpl.
  - eauto.
  - destruct radii as [|r0 rs]; simpl in Hlen; [lia|].
    apply IH; lia.
Qed.

Lemma ObstacleAvoidance_defined (agent : Agent F) (centers : list (Vector2 F))
    (radii : list F) (lookAhead avoidStrength : F) :
  (length centers <= length radii)%nat ->
  exists s, ObstacleAvoidance agent centers radii lookAhead avoidStrength = Some s.
Proof.
  intros Hlen. unfold ObstacleAvoidance.
  destruct (ObstacleAvoidance_loop_defined agent (ahead_point agent lookAhead)
              avoidStrength centers radii zero Hlen) as [s Hs].
  rewrite Hs. cbn [obind].
  destruct (flt (Length s) (lit 1 3)); eauto.
Qed.

End ControlFlow.

(** ** Facts about the real-number arithmetic *)

Section RealArithmetic.

Local Open Scope R_scope.

Lemma Rltb_true (a b : R) : Rltb a b = true <-> a < b.
Proof. unfold Rltb; destruct (Rlt_dec a b); split; intros; try easy. Qed.

Lemma Rltb_false (a b : R) : Rltb a b = false <-> b <= a.
Proof.
  unfold Rltb; destruct (Rlt_dec a b); split; intros; try easy; lra.
Qed.

Lemma Reqb_true (a b : R) : Reqb a b = true <-> a = b.
Proof. unfold Reqb; destruct (Req_dec_T a b); split; intros; try easy. Qed.

Lemma Reqb_false (a b : R) : Reqb a b = false <-> a <> b.
Proof. unfold Reqb; destruct (Req_dec_T a b); split; intros; try easy. Qed.

Lemma Length_real (v : Vector2 R) : Length v = sqrt (x v * x v + y v * y v).
Proof. reflexivity. Qed.


Lemma Length_zero : Length (zero (F := R)) = 0.
Proof.
  rewrite Length_real. cbn. replace (0 * 0 + 0 * 0) with 0 by ring. apply sqrt_0.
Qed.

Lemma Length_Scale (v : Vector2 R) (s : R) :
  Length (Scale v s) = Rabs s * Length v.
Proof.
  rewrite !Length_real. cbn.
  replace (x v * s * (x v * s) + y v * s * (y v * s))
    with (Rsqr s * (x v * x v + y v * y v)) by (unfold Rsqr; ring).
  rewrite sqrt_mult.
  - now rewrite sqrt_Rsqr_abs.
  - apply Rle_0_sqr.
  - nra.
Qed.

(** [Limit] never returns more than [max], for [max] that is not negative. *)
Lemma Length_Limit (v : Vector2 R) (max : R) :
  0 <= max -> Length (Limit v max) <= max.
Proof.
  intros Hmax. unfold Limit. cbn [flt R_arith fdiv].
  destruct (Rltb max (Length v)) eqn:E.
  - apply Rltb_true in E. rewrite Length_Scale.
    assert (Hl : 0 < Length v) by lra.
    rewrite Rabs_right.
    + right. field. lra.
    + apply Rle_ge. apply Rmult_le_pos; [lra|].
      left. now apply Rinv_0_lt_compat.
  - now apply Rltb_false in E.
Qed.


End RealArithmetic.

(** ** The simulation step *)

Section StepControlFlow.

Context {F : Type} {AF : Arith F}.

Lemma vel_single_integrate (player : Agent F) (steerVec : Vector2 F) :
  vel (single_integrate player steerVec)
  = Limit (Add (vel player) steerVec) (maxSpeed player).
Proof. reflexivity. Qed.

Lemma pos_single_integrate (player : Agent F) (steerVec : Vector2 F) :
  pos (single_integrate player steerVec)
  = keep_inside (Add (pos player) (Limit (Add (vel player) steerVec) (maxSpeed player))).
Proof. reflexivity. Qed.



(** The loop body reaches the integration for every agent whose path index
    is not negative; the force it applies is a [Limit (..) maxForce], and
    what it wrote through the reference [a] before is [acc] and
    [pathIndex] only. *)
Lemma agent_forces_defined (tg : Toggles) (agents : list (Agent F)) (i : nat)
    (a : Agent F) :
  nth_error agents i = Some a -> (0 <= pathIndex a)%Z ->
  exists (a1 : Agent F) (f0 : Vector2 F),
    agent_forces tg agents i
      = Some (set_nth agents i a1, a1, Limit f0 (maxForce a)) /\
    pos a1 = pos a /\ vel a1 = vel a /\
    maxSpeed a1 = maxSpeed a /\ maxForce a1 = maxForce a /\
    (0 <= pathIndex a1)%Z.
Proof.
  intros Hnth Hidx. unfold agent_forces. rewrite Hnth. cbn [obind].
  assert (Hpath :
    exists steerPath a1,
      (if enablePathFollowing tg
       then ' (desired, idx) <-
              PathFollowing (set_acc a zero) path (pathIndex (set_acc a zero))
                pathWaypointRadius ;;
            Some (Sub desired (vel (set_pathIndex (set_acc a zero) idx)),
                  set_pathIndex (set_acc a zero) idx)
       else Some (zero, set_acc a zero)) = Some (steerPath, a1) /\
      pos a1 = pos a /\ vel a1 = vel a /\
      maxSpeed a1 = maxSpeed a /\ maxForce a1 = maxForce a /\
      (0 <= pathIndex a1)%Z).
  { destruct (enablePathFollowing tg).
    - destruct (PathFollowing_defined (set_acc a zero) path
                  (pathIndex (set_acc a zero)) pathWaypointRadius)
        as (desired & idx & Hpf & Hrange).
      + discriminate.
      + exact Hidx.
      + rewrite Hpf. cbn [obind].
        eexists _, _. split; [reflexivity|]. cbn. repeat split; lia.
    - eexists _, _. split; [reflexivity|]. cbn. repeat split; assumption. }
  destruct Hpath as (steerPath & a1 & Hp & Hpos & Hvel & Hms & Hmf & Hpi).
  rewrite Hp. cbn [obind].
  assert (Hobs :
    exists steerObs,
      (if enableObstacleAvoid tg
       then ObstacleAvoidance a1 obsCenters obsRadii obstacleLookAhead obstacleStrength
       else Some zero) = Some steerObs).
  { destruct (enableObstacleAvoid tg); [|eauto].
    apply ObstacleAvoidance_defined. simpl. lia. }
  destruct Hobs as (steerObs & Ho). rewrite Ho. cbn [obind].
  rewrite <- Hmf. eexists a1, _. split; [reflexivity|].
  repeat split; assumption.
Qed.

End StepControlFlow.

(** ** Sequential update of the agent vector *)

Section SequentialUpdate.

Context {F : Type} {AF : Arith F}.




End SequentialUpdate.





(** ** Pairwise forces: [Separation] and [PredictiveAvoidance] *)

Section SeparationLoop.

Context {F : Type} {AF : Arith F}.

(** One iteration adds when it counts, and leaves the pair otherwise. *)
Lemma Separation_visit_counts (self_at : option nat) (self : Agent F) (radius : F)
    (j : nat) (other : Agent F) (st : Vector2 F * Z) :
  Separation_visit self_at self radius j other st
  = if Separation_counts self_at self radius j other
    then Separation_add self radius st other
    else st.
Proof.
  unfold Separation_visit, Separation_counts, Separation_add.
  destruct st as [steer count]. cbn [fst snd].
  destruct (same_address self_at j); cbn [negb andb]; [reflexivity|].
  destruct (flt (of_int 0) (Length (Sub (pos self) (pos other))) &&
            flt (Length (Sub (pos self) (pos other))) radius); reflexivity.
Qed.

(** The loop visits every element of the vector once, in the order of the
    indices. *)
Lemma Separation_loop_filter (self_at : option nat) (self : Agent F) (radius : F)
    (agents : list (Agent F)) :
  forall (k : nat) (st : Vector2 F * Z),
    Separation_loop self_at self radius k agents st
    = fold_left (fun st jo => Separation_add self radius st (snd jo))
        (filter (fun jo => Separation_counts self_at self radius (fst jo) (snd jo))
           (indexed k agents))
        st.
Proof.
  induction agents as [|other rest IH]; intros k st; [reflexivity|].
  cbn [Separation_loop]. rewrite IH, Separation_visit_counts.
  unfold indexed. cbn [length seq combine filter fst snd].
  destruct (Separation_counts self_at self radius k other); reflexivity.
Qed.

Lemma Separation_add_count (self : Agent F) (radius : F)
    (l : list (nat * Agent F)) :
  forall st : Vector2 F * Z,
    snd (fold_left (fun st jo => Separation_add self radius st (snd jo)) l st)
    = (snd st + Z.of_nat (length l))%Z.
Proof.
  induction l as [|jo l IH]; intros st; cbn [fold_left length].
  - lia.
  - rewrite IH. cbn [Separation_add snd]. lia.
Qed.

End SeparationLoop.

(** C3, as the code has it.  In every arithmetic.  The loop of [Separation]
    goes through all elements of the vector in order and accumulates, for
    each element that counts, the vector [Normalize (pos self - pos other)]
    weighted by [(radius - d) / radius], and counts it; [Separation] then
    averages, normalizes and scales what the loop accumulated.  [self] is
    left out by identity (its index) and never counts; another element
    counts exactly when its distance [d] passes the two tests [d > 0] and
    [d < radius], so an element at distance 0, also a distinct peer at the
    position of [self], does not count. *)
Theorem Separation_accumulates (F : Type) (AF : Arith F)
    (self_at : option nat) (self : Agent F) (agents : list (Agent F))
    (radius strength : F) (i j : nat) (other : Agent F) :
  let counted :=
    filter (fun jo => Separation_counts self_at self radius (fst jo) (snd jo))
      (indexed 0 agents) in
  let d := Length (Sub (pos self) (pos other)) in
  Separation_loop self_at self radius 0 agents (zero, 0%Z)
  = fold_left (fun st jo => Separation_add self radius st (snd jo)) counted
      (zero, 0%Z) /\
  snd (Separation_loop self_at self radius 0 agents (zero, 0%Z))
  = Z.of_nat (length counted) /\
  Separation self_at self agents radius strength
  = Separation_finish (Separation_loop self_at self radius 0 agents (zero, 0%Z))
      strength /\
  Separation_counts (Some i) self radius i other = false /\
  (i <> j ->
   Separation_counts (Some i) self radius j other
   = (flt (of_int 0) d && flt d radius)) /\
  (flt (of_int 0) d = false ->
   Separation_counts self_at self radius j other = false).
Proof.
  cbv zeta. split; [|split; [|split; [|split; [|split]]]].
  - apply Separation_loop_filter.
  - rewrite Separation_loop_filter, Separation_add_count. reflexivity.
  - unfold Separation, Separation_finish.
    destruct (Separation_loop self_at self radius 0 agents (zero, 0%Z));
      reflexivity.
  - unfold Separation_counts. cbn [same_address]. now rewrite Nat.eqb_refl.
  - intros Hne. unfold Separation_counts. cbn [same_address].
    apply Nat.eqb_neq in Hne. now rewrite Hne.
  - intros Hd. unfold Separation_counts. rewrite Hd.
    cbn [andb]. apply andb_false_r.
Qed.

Lemma Separation_accumulates_witness :
  (0%nat <> 1%nat /\
   flt (of_int 0)
     (Length (Sub (pos (demo_agent (F := b32) 100 100 1 0))
                (pos (demo_agent (F := b32) 100 100 (-1) 1)))) = false) /\
  Separation_counts (Some 0%nat) (demo_agent (F := b32) 100 100 1 0)
    separationRadius 1 (demo_agent 100 100 (-1) 1) = false /\
  snd (Separation_loop (Some 0%nat) (demo_agent (F := b32) 100 100 1 0)
         separationRadius 0
         [demo_agent 100 100 1 0; demo_agent 100 100 (-1) 1; demo_agent 103 104 0 0]
         (zero, 0%Z)) = 1%Z.
Proof.
  assert (Hd : flt (of_int 0)
                 (Length (Sub (pos (demo_agent (F := b32) 100 100 1 0))
                            (pos (demo_agent (F := b32) 100 100 (-1) 1)))) = false)
    by (vm_compute; reflexivity).
  split; [split; [discriminate|exact Hd]|].
  pose proof (Separation_accumulates b32 b32_arith (Some 0%nat)
                (demo_agent 100 100 1 0)
                [demo_agent 100 100 1 0; demo_agent 100 100 (-1) 1;
                 demo_agent 103 104 0 0]
                separationRadius separationStrength 0 1
                (demo_agent 100 100 (-1) 1))
    as (_ & Hcount & _ & _ & _ & Hzero).
  split; [exact (Hzero Hd)|].
  rewrite Hcount. vm_compute. reflexivity.
Defined.

Section PairwiseForces.

Local Open Scope R_scope.

Lemma Length_Sub_self (p : Vector2 R) : Length (Sub p p) = 0.
Proof.
  rewrite Length_real. cbn.
  replace ((x p - x p) * (x p - x p) + (y p - y p) * (y p - y p)) with 0 by ring.
  apply sqrt_0.
Qed.

Lemma Normalize_direction (v : Vector2 R) :
  Length v <> 0 -> Normalize v = Scale v (1 / Length v).
Proof.
  intros Hne. unfold Normalize, Scale. cbn [feq fdiv fmul R_arith of_int].
  destruct (Reqb (Length v) 0) eqn:E.
  - apply Reqb_true in E. contradiction.
  - f_equal; field; assumption.
Qed.

Lemma Separation_visit_unchanged_at_zero (self_at : option nat) (self other : Agent R)
    (radius : R) (k : nat) (st : Vector2 R * Z) :
  Length (Sub (pos self) (pos other)) = 0 ->
  Separation_visit self_at self radius k other st = st.
Proof.
  intros Hd. unfold Separation_visit. destruct st as [steer count].
  destruct (same_address self_at k); [reflexivity|].
  cbn [flt R_arith of_int]. rewrite Hd.
  replace (Rltb 0 0) with false by (symmetry; apply Rltb_false; lra).
  reflexivity.
Qed.

End PairwiseForces.

Section PairwiseExamples.

Local Open Scope R_scope.

(** C3, counterexample.  [peer_c] is another element of the vector than
    [self_c] and lies at the position of [self_c], at distance 0 and so
    within the radius; the loop adds nothing for it and does not count
    it, and [Separation] returns the zero vector. *)
Lemma Separation_coincident_peer_counterexample :
  same_address (Some 0%nat) 1 = false /\
  Length (Sub (pos self_c) (pos peer_c)) < separationRadius /\
  Separation_visit (Some 0%nat) self_c separationRadius 1 peer_c (zero, 0%Z)
  = (zero, 0%Z) /\
  ~ (exists away : Vector2 R,
       Length away = 1 /\
       Separation_visit (Some 0%nat) self_c separationRadius 1 peer_c (zero, 0%Z)
       = (Add zero
            (Scale away
               ((separationRadius - Length (Sub (pos self_c) (pos peer_c)))
                / separationRadius)),
          1%Z)) /\
  Separation (Some 0%nat) self_c [self_c; peer_c] separationRadius separationStrength
  = zero.
Proof.
  assert (Hd : Length (Sub (pos self_c) (pos peer_c)) = 0) by length_is.
  assert (Hv : Separation_visit (Some 0%nat) self_c separationRadius 1 peer_c
                 (zero, 0%Z) = (zero, 0%Z))
    by (now apply Separation_visit_unchanged_at_zero).
  split; [reflexivity|].
  split; [rewrite Hd; real_eval; lra|].
  split; [exact Hv|].
  split.
  - intros (away & _ & Hc). rewrite Hv in Hc. inversion Hc.
  - unfold Separation. cbn [Separation_loop].
    change (Separation_visit (Some 0%nat) self_c separationRadius 0 self_c (zero, 0%Z))
      with (zero (F := R), 0%Z).
    rewrite Hv. cbn [Z.gtb Z.compare].
    rewrite Length_zero. cbn [flt R_arith].
    replace (Rltb 0 (lit 1 4)) with true; [reflexivity|].
    symmetry. apply Rltb_true. real_eval. lra.
Qed.

End PairwiseExamples.

Section PredictiveAvoidanceFacts.

Local Open Scope R_scope.

(** [PredictiveAvoidance] outside of the band [0.001 < dist < 24]. *)
Lemma PredictiveAvoidance_outside (a b : Agent R) (t m : R) :
  Length (Sub (predicted a t) (predicted b t)) <= 0.001 \/
  24 <= Length (Sub (predicted a t) (predicted b t)) ->
  PredictiveAvoidance a b t m = zero.
Proof.
  intros Hout. unfold PredictiveAvoidance. cbv zeta.
  destruct (flt (Length (Sub (predicted a t) (predicted b t))) (of_int 24)) eqn:E1;
    [|reflexivity].
  destruct (flt (lit 1 3) (Length (Sub (predicted a t) (predicted b t)))) eqn:E2;
    [|reflexivity].
  real_consts. apply Rltb_true in E1, E2. lra.
Qed.


Lemma Add_zero_zero : Add (zero (F := R)) zero = zero.
Proof. unfold Add, zero. cbn. f_equal; lra. Qed.

Lemma PredictiveAvoidance_sum_coincident (a : Agent R) (i : nat)
    (agents : list (Agent R)) :
  Forall (fun b => pos b = pos a /\ vel b = vel a) agents ->
  forall j, PredictiveAvoidance_sum a i j agents zero = zero.
Proof.
  induction 1 as [|b rest [Hp Hv] _ IH]; intros j; simpl; [reflexivity|].
  destruct (Nat.eqb i j); [apply IH|].
  rewrite PredictiveAvoidance_outside.
  - rewrite Add_zero_zero. apply IH.
  - left. unfold predicted. rewrite Hp, Hv, Length_Sub_self. lra.
Qed.

Lemma Separation_loop_coincident (self_at : option nat) (a : Agent R) (radius : R)
    (agents : list (Agent R)) :
  Forall (fun b => pos b = pos a /\ vel b = vel a) agents ->
  forall k st, Separation_loop self_at a radius k agents st = st.
Proof.
  induction 1 as [|b rest [Hp Hv] _ IH]; intros k st; simpl; [reflexivity|].
  rewrite Separation_visit_unchanged_at_zero.
  - apply IH.
  - rewrite Hp. apply Length_Sub_self.
Qed.

(** C10.  [PredictiveAvoidance] returns the zero vector when the distance
    of the predicted positions is at most 0.001 or at least 24, so in
    particular for two agents of equal position and velocity; a neighbour
    at the position of [self] leaves the accumulation of [Separation]
    unchanged.  An agent whose neighbours all coincide with it gets the
    zero vector from [Separation] and from the sum of the predictive
    forces. *)
Theorem coincident_agents_get_no_repulsion (a b : Agent R) (t m : R)
    (agents : list (Agent R)) :
  let dist := Length (Sub (predicted a t) (predicted b t)) in
  (dist <= 0.001 \/ 24 <= dist -> PredictiveAvoidance a b t m = zero)
  /\ (pos a = pos b -> vel a = vel b ->
      dist = 0 /\ PredictiveAvoidance a b t m = zero)
  /\ (pos a = pos b ->
      forall self_at radius k st, Separation_visit self_at a radius k b st = st)
  /\ (Forall (fun b => pos b = pos a /\ vel b = vel a) agents ->
      forall self_at i j radius strength,
        Separation self_at a agents radius strength = zero /\
        PredictiveAvoidance_sum a i j agents zero = zero).
Proof.
  cbv zeta. split; [apply PredictiveAvoidance_outside|].
  split; [|split].
  - intros Hp Hv.
    assert (Hd : Length (Sub (predicted a t) (predicted b t)) = 0).
    { unfold predicted. rewrite Hp, Hv. apply Length_Sub_self. }
    split; [exact Hd|].
    apply PredictiveAvoidance_outside. left. rewrite Hd. lra.
  - intros Hp self_at radius k st.
    apply Separation_visit_unchanged_at_zero. rewrite Hp. apply Length_Sub_self.
  - intros Hall self_at i j radius strength. split.
    + unfold Separation. rewrite Separation_loop_coincident by assumption.
      cbn [Z.gtb Z.compare]. rewrite Length_zero.
      replace (flt 0 (lit 1 4)) with true; [reflexivity|].
      symmetry. real_consts. apply Rltb_true. lra.
    + now apply PredictiveAvoidance_sum_coincident.
Qed.

Lemma coincident_agents_get_no_repulsion_witness :
  (pos self_c = pos peer_c /\
   Forall (fun b => pos b = pos self_c /\ vel b = vel self_c) [self_c; self_c]) /\
  PredictiveAvoidance self_c self_c predictiveLookAhead predictiveStrength = zero /\
  Separation_visit (Some 0%nat) self_c separationRadius 1 peer_c (zero, 0%Z)
  = (zero, 0%Z) /\
  Separation (Some 0%nat) self_c [self_c; self_c] separationRadius separationStrength
  = zero.
Proof.
  assert (Hall : Forall (fun b => pos b = pos self_c /\ vel b = vel self_c)
                   [self_c; self_c]) by (repeat constructor).
  pose proof (coincident_agents_get_no_repulsion self_c self_c predictiveLookAhead
                predictiveStrength [self_c; self_c]) as (_ & Heq & _ & Hlist).
  pose proof (coincident_agents_get_no_repulsion self_c peer_c predictiveLookAhead
                predictiveStrength []) as (_ & _ & Hsep & _).
  split; [split; [reflexivity|exact Hall]|].
  split; [exact (proj2 (Heq eq_refl eq_refl))|].
  split; [exact (Hsep eq_refl (Some 0%nat) separationRadius 1%nat (zero, 0%Z))|].
  exact (proj1 (Hlist Hall (Some 0%nat) 0%nat 0%nat separationRadius separationStrength)).
Defined.

End PredictiveAvoidanceFacts.



Section PredictiveAvoidanceForce.

Local Open Scope R_scope.


End PredictiveAvoidanceForce.

(** ** [Arrive] *)




Section ArriveFacts.

Local Open Scope R_scope.

Lemma Arrive_within_epsilon (p target : Vector2 R) (s r : R) :
  Length (Sub target p) < 0.001 -> Arrive p target s r = zero.
Proof.
  intros Hd. unfold Arrive. cbv zeta.
  destruct (flt (Length (Sub target p)) (lit 1 3)) eqn:E; [reflexivity|].
  real_consts. apply Rltb_false in E. lra.
Qed.

(** Outside of the epsilon, [Arrive] is the unit vector towards the target
    scaled by the smaller of [s * (d / r)] and [s]. *)
Lemma Arrive_beyond_epsilon (p target : Vector2 R) (s r : R) :
  0.001 <= Length (Sub target p) ->
  Arrive p target s r
  = Scale (Normalize (Sub target p))
      (Rmin (s * (Length (Sub target p) / r)) s).
Proof.
  intros Hd. unfold Arrive. cbv zeta.
  destruct (flt (Length (Sub target p)) (lit 1 3)) eqn:E.
  - real_consts. apply Rltb_true in E. lra.
  - real_consts. f_equal.
    destruct (Rltb s (s * (Length (Sub target p) / r))) eqn:E2.
    + apply Rltb_true in E2. rewrite Rmin_right; lra.
    + apply Rltb_false in E2. rewrite Rmin_left; lra.
Qed.

Lemma ratio_ge_1 (d r : R) : 0 < r -> r <= d -> 1 <= d / r.
Proof.
  intros Hr Hd. apply Rmult_le_reg_r with r; [exact Hr|].
  replace (d / r * r) with d by (field; lra). lra.
Qed.




End ArriveFacts.

(** ** [ObstacleAvoidance] *)

Section ObstacleLoop.

Context {F : Type} {AF : Arith F}.

(** Every obstacle of the list is visited once, in order. *)
Lemma ObstacleAvoidance_loop_fold (agent : Agent F) (ahead : Vector2 F)
    (avoidStrength : F) (centers : list (Vector2 F)) :
  forall (radii : list F) (steer : Vector2 F),
    length centers = length radii ->
    ObstacleAvoidance_loop agent ahead avoidStrength centers radii steer
    = Some (fold_left
              (fun s cr =>
                 ObstacleAvoidance_visit agent ahead avoidStrength (fst cr) (snd cr) s)
              (combine centers radii) steer).
Proof.
  induction centers as [|c cs IH]; intros [|r0 rs] steer Hlen;
    simpl in *; try discriminate; [reflexivity|].
  apply IH. congruence.
Qed.

End ObstacleLoop.

Section ObstacleFacts.

Local Open Scope R_scope.

(** C4, as the code has it.  For the obstacle that is visited, with [r] its
    buffered radius: when the look-ahead point is inside [r], the push away
    from the centre along the look-ahead point is added, and the current
    position is not looked at; the current position is tested only when
    the look-ahead point is not inside, and a push discounted by 0.8 is
    added when it is inside [r]; otherwise nothing is added.  The loop
    visits every obstacle of the list. *)
Theorem ObstacleAvoidance_visit_cases (agent : Agent R) (ahead : Vector2 R)
    (avoidStrength : R) (c : Vector2 R) (obsRadius : R) (steer : Vector2 R)
    (centers : list (Vector2 R)) (radii : list R) :
  let r := obsRadius + 8 in
  let dist := Length (Sub ahead c) in
  let nowDist := Length (Sub (pos agent) c) in
  (dist < r ->
     ObstacleAvoidance_visit agent ahead avoidStrength c obsRadius steer
     = Add steer (Scale (Normalize (Sub ahead c)) ((r - dist) * avoidStrength)))
  /\ (r <= dist -> nowDist < r ->
      ObstacleAvoidance_visit agent ahead avoidStrength c obsRadius steer
      = Add steer (Scale (Normalize (Sub (pos agent) c))
                     ((r - nowDist) * avoidStrength * 0.8)))
  /\ (r <= dist -> r <= nowDist ->
      ObstacleAvoidance_visit agent ahead avoidStrength c obsRadius steer = steer)
  /\ (length centers = length radii ->
      ObstacleAvoidance_loop agent ahead avoidStrength centers radii steer
      = Some (fold_left
                (fun s cr =>
                   ObstacleAvoidance_visit agent ahead avoidStrength (fst cr) (snd cr) s)
                (combine centers radii) steer)).
Proof.
  cbv zeta. split; [|split; [|split]].
  - intros Hin. unfold ObstacleAvoidance_visit. real_consts.
    now rewrite (proj2 (Rltb_true _ _) Hin).
  - intros Hout Hnow. unfold ObstacleAvoidance_visit. real_consts.
    rewrite (proj2 (Rltb_false _ _) Hout), (proj2 (Rltb_true _ _) Hnow).
    reflexivity.
  - intros Hout Hnow. unfold ObstacleAvoidance_visit. real_consts.
    now rewrite (proj2 (Rltb_false _ _) Hout), (proj2 (Rltb_false _ _) Hnow).
  - apply ObstacleAvoidance_loop_fold.
Qed.

Lemma Normalize_value (v : Vector2 R) (l : R) :
  Length v = l -> l <> 0 -> Normalize v = {| x := x v / l; y := y v / l |}.
Proof.
  intros Hl Hne. unfold Normalize. rewrite Hl. real_consts.
  now rewrite (proj2 (Reqb_false _ _) Hne).
Qed.

Lemma ahead_point_inside_agent : ahead_point inside_agent 9 = {| x := 0; y := -6 |}.
Proof.
  unfold ahead_point.
  assert (Hn : Normalize (vel inside_agent) = zero).
  { unfold Normalize.
    replace (Length (vel inside_agent)) with 0 by (symmetry; length_is).
    real_consts. now rewrite (proj2 (Reqb_true 0 0) eq_refl). }
  rewrite Hn, Length_zero. real_consts.
  rewrite (proj2 (Rltb_true 0 (1 / 100)) ltac:(lra)).
  unfold Add, Scale. real_eval. f_equal; lra.
Qed.

Lemma ObstacleAvoidance_visit_cases_witness :
  (2 + 8 <= Length (Sub (vec 0 20) (vec (F := R) 0 0)) /\
   Length (Sub (pos inside_agent) (vec 0 0)) < 2 + 8) /\
  ObstacleAvoidance_visit inside_agent (vec 0 20) 1 (vec 0 0) 2 zero
  = Add zero (Scale (Normalize (Sub (pos inside_agent) (vec 0 0)))
                ((2 + 8 - Length (Sub (pos inside_agent) (vec 0 0))) * 1 * 0.8)).
Proof.
  assert (Ha : Length (Sub (vec 0 20) (vec (F := R) 0 0)) = 20) by length_is.
  assert (Hn : Length (Sub (pos inside_agent) (vec 0 0)) = 3) by length_is.
  assert (Hout : 2 + 8 <= Length (Sub (vec 0 20) (vec (F := R) 0 0)))
    by (rewrite Ha; lra).
  assert (Hnow : Length (Sub (pos inside_agent) (vec 0 0)) < 2 + 8)
    by (rewrite Hn; lra).
  split; [split; assumption|].
  exact (proj1 (proj2
    (ObstacleAvoidance_visit_cases inside_agent (vec 0 20) 1 (vec 0 0) 2 zero [] []))
    Hout Hnow).
Defined.

(** C4, counterexample.  The obstacle is centred at (0, 0) with radius 2,
    buffered radius 10.  The agent is at (0, 3), inside; its look-ahead
    point (0, -6) is inside too.  The loop body adds the look-ahead push
    (0, -4) only: the push (0, 5.6) for the current position, which would
    give (0, 1.6), is not added, and [ObstacleAvoidance] returns (0, -1). *)
Lemma ObstacleAvoidance_both_inside_counterexample :
  Length (Sub (pos inside_agent) (vec 0 0)) < 2 + 8 /\
  Length (Sub (ahead_point inside_agent 9) (vec 0 0)) < 2 + 8 /\
  ObstacleAvoidance_visit inside_agent (ahead_point inside_agent 9) 1 (vec 0 0) 2 zero
  = {| x := 0; y := -4 |} /\
  ObstacleAvoidance_visit_independent
    inside_agent (ahead_point inside_agent 9) 1 (vec 0 0) 2 zero
  = {| x := 0; y := 1.6 |} /\
  ObstacleAvoidance_visit inside_agent (ahead_point inside_agent 9) 1 (vec 0 0) 2 zero
  <> ObstacleAvoidance_visit_independent
       inside_agent (ahead_point inside_agent 9) 1 (vec 0 0) 2 zero /\
  ObstacleAvoidance inside_agent [vec 0 0] [2] 9 1 = Some {| x := 0; y := -1 |}.
Proof.
  assert (Hn : Length (Sub (pos inside_agent) (vec 0 0)) = 3) by length_is.
  assert (Ha : Length (Sub {| x := 0; y := -6 |} (vec (F := R) 0 0)) = 6) by length_is.
  assert (Hcode :
    ObstacleAvoidance_visit inside_agent {| x := 0; y := -6 |} 1 (vec 0 0) 2 zero
    = {| x := 0; y := -4 |}).
  { unfold ObstacleAvoidance_visit. rewrite Ha.
    rewrite (Normalize_value _ 6 Ha) by lra. real_consts.
    rewrite (proj2 (Rltb_true 6 (2 + 8)) ltac:(lra)).
    unfold Add, Scale, Sub. real_eval. f_equal; lra. }
  assert (Hspec :
    ObstacleAvoidance_visit_independent
      inside_agent {| x := 0; y := -6 |} 1 (vec 0 0) 2 zero
    = {| x := 0; y := 1.6 |}).
  { unfold ObstacleAvoidance_visit_independent. rewrite Ha, Hn.
    rewrite (Normalize_value _ 6 Ha), (Normalize_value _ 3 Hn) by lra. real_consts.
    rewrite (proj2 (Rltb_true 6 (2 + 8)) ltac:(lra)).
    rewrite (proj2 (Rltb_true 3 (2 + 8)) ltac:(lra)).
    unfold Add, Scale, Sub. real_eval. f_equal; lra. }
  rewrite ahead_point_inside_agent.
  split; [rewrite Hn; lra|].
  split; [rewrite Ha; lra|].
  split; [exact Hcode|].
  split; [exact Hspec|].
  split.
  - rewrite Hcode, Hspec. intros H.
    apply (f_equal (@y R)) in H. cbn [y] in H. lra.
  - unfold ObstacleAvoidance. rewrite ahead_point_inside_agent.
    cbn [ObstacleAvoidance_loop obind]. rewrite Hcode.
    assert (Hl : Length {| x := 0; y := -4 |} = 4) by length_is.
    rewrite Hl. real_consts.
    rewrite (proj2 (Rltb_false 4 (1 / 1000)) ltac:(lra)).
    unfold Limit. rewrite Hl. real_consts.
    rewrite (proj2 (Rltb_true 1 4) ltac:(lra)).
    unfold Scale. real_eval. do 2 f_equal; lra.
Qed.

End ObstacleFacts.

(** ** [PrioritySteering] *)

Section Priority.

Context {F : Type} {AF : Arith F}.

Lemma PrioritySteering_skips (pre rest : list (Vector2 F)) (epsilon : F) :
  Forall (fun g => flt epsilon (Length g) = false) pre ->
  PrioritySteering (pre ++ rest) epsilon = PrioritySteering rest epsilon.
Proof.
  induction 1 as [|g pre Hg _ IH]; simpl; [reflexivity|].
  now rewrite Hg.
Qed.

End Priority.

(** C7.  In every arithmetic: [PrioritySteering] returns the first force
    of the list whose magnitude exceeds [epsilon], that is the force [f]
    when the test [Length g > epsilon] of the code fails for every force
    [g] before it and succeeds for [f], whatever comes after [f]; and it
    returns the zero vector when the test fails for every force of the list,
    as for the empty list. *)
Theorem PrioritySteering_first_exceeding (F : Type) (AF : Arith F)
    (pre post forces : list (Vector2 F)) (f : Vector2 F) (epsilon : F) :
  (Forall (fun g => flt epsilon (Length g) = false) pre ->
   flt epsilon (Length f) = true ->
   PrioritySteering (pre ++ f :: post) epsilon = f)
  /\ (Forall (fun g => flt epsilon (Length g) = false) forces ->
      PrioritySteering forces epsilon = zero)
  /\ PrioritySteering [] epsilon = zero.
Proof.
  split; [|split].
  - intros Hpre Hf. rewrite PrioritySteering_skips by exact Hpre.
    simpl. now rewrite Hf.
  - intros Hall. rewrite <- (app_nil_r forces).
    now rewrite PrioritySteering_skips by exact Hall.
  - reflexivity.
Qed.

Lemma PrioritySteering_first_exceeding_witness :
  (Forall (fun g => flt (lit 1 3) (Length g) = false) [vec (F := b32) 0 0] /\
   flt (lit 1 3) (Length (vec (F := b32) 3 4)) = true) /\
  PrioritySteering ([vec 0 0] ++ vec 3 4 :: [vec 100 100]) (lit 1 3)
  = vec (F := b32) 3 4.
Proof.
  assert (Hpre : Forall (fun g => flt (lit 1 3) (Length g) = false)
                   [vec (F := b32) 0 0])
    by (repeat constructor).
  assert (Hf : flt (lit 1 3) (Length (vec (F := b32) 3 4)) = true)
    by (vm_compute; reflexivity).
  split; [split; assumption|].
  exact (proj1 (PrioritySteering_first_exceeding b32 b32_arith
                  [vec 0 0] [vec 100 100] [] (vec 3 4) (lit 1 3)) Hpre Hf).
Defined.

(** The same in the real arithmetic, with the order of the reals. *)
Lemma PrioritySteering_real (pre post : list (Vector2 R)) (f : Vector2 R)
    (epsilon : R) :
  Forall (fun g => (Length g <= epsilon)%R) pre ->
  (epsilon < Length f)%R ->
  PrioritySteering (pre ++ f :: post) epsilon = f.
Proof.
  intros Hpre Hf. rewrite PrioritySteering_skips.
  - cbn [PrioritySteering].
    replace (flt epsilon (Length f)) with true; [reflexivity|].
    symmetry. now apply Rltb_true.
  - eapply Forall_impl; [|exact Hpre].
    intros g Hg. now apply Rltb_false.
Qed.

Lemma PrioritySteering_real_negligible (forces : list (Vector2 R)) (epsilon : R) :
  Forall (fun g => (Length g <= epsilon)%R) forces ->
  PrioritySteering forces epsilon = zero.
Proof.
  intros Hall. rewrite <- (app_nil_r forces). rewrite PrioritySteering_skips.
  - reflexivity.
  - eapply Forall_impl; [|exact Hall].
    intros g Hg. now apply Rltb_false.
Qed.

(** ** [PathFollowing] *)

Section PathIndex.

Context {F : Type} {AF : Arith F}.

(** An index at or above the size of the path is reset to 0. *)
Lemma PathFollowing_resets_above (a : Agent F) (path : list (Vector2 F))
    (outIndex : Z) (waypointRadius : F) :
  path <> [] -> (Z.of_nat (length path) <= outIndex)%Z ->
  PathFollowing a path outIndex waypointRadius
  = PathFollowing a path 0 waypointRadius.
Proof.
  intros Hne Hge. unfold PathFollowing.
  destruct path as [|p ps]; [congruence|].
  destruct (Z.geb_spec outIndex (Z.of_nat (length (p :: ps)))) as [_|Hlt]; [|lia].
  destruct (Z.geb_spec 0 (Z.of_nat (length (p :: ps)))) as [H0|_];
    [simpl in H0; lia|].
  reflexivity.
Qed.

End PathIndex.

(** The case that the guard of [PathFollowing] does not cover.  In every
    arithmetic and for every path that is not empty: a negative index
    passes the guard [outIndex >= size] unchanged, and [path[outIndex]] is
    read out of range. *)
Lemma PathFollowing_negative_index (F : Type) (AF : Arith F) (a : Agent F)
    (path : list (Vector2 F)) (outIndex : Z) (waypointRadius : F) :
  path <> [] -> (outIndex < 0)%Z ->
  PathFollowing a path outIndex waypointRadius = None.
Proof.
  intros Hne Hneg. unfold PathFollowing.
  destruct path as [|p ps]; [congruence|].
  destruct (Z.geb_spec outIndex (Z.of_nat (length (p :: ps)))) as [Hge|_]; [lia|].
  unfold at_index.
  destruct (Z.ltb_spec outIndex 0) as [_|Hge]; [reflexivity|lia].
Qed.

(** C8, as the code has it.  In every arithmetic, for every path that is
    not empty: an index at or above the size of the path is reset to 0 at
    the start of the call, before a waypoint is read; for every index that
    is not negative no waypoint is read out of range, and the index after
    the call is in range. *)
Theorem PathFollowing_guard (F : Type) (AF : Arith F) (a : Agent F)
    (path : list (Vector2 F)) (outIndex : Z) (waypointRadius : F) :
  path <> [] -> (0 <= outIndex)%Z ->
  (exists desired idx,
     PathFollowing a path outIndex waypointRadius = Some (desired, idx) /\
     (0 <= idx < Z.of_nat (length path))%Z) /\
  ((Z.of_nat (length path) <= outIndex)%Z ->
   PathFollowing a path outIndex waypointRadius
   = PathFollowing a path 0 waypointRadius).
Proof.
  intros Hne Hidx. split.
  - now apply PathFollowing_defined.
  - now apply PathFollowing_resets_above.
Qed.

Lemma PathFollowing_guard_witness :
  (path (F := b32) <> [] /\ (0 <= 9)%Z /\
   (Z.of_nat (length (path (F := b32))) <= 9)%Z) /\
  PathFollowing (demo_agent (F := b32) 100 100 1 0) path 9 pathWaypointRadius
  = PathFollowing (demo_agent (F := b32) 100 100 1 0) path 0 pathWaypointRadius.
Proof.
  assert (Hne : path (F := b32) <> []) by discriminate.
  assert (Hge : (Z.of_nat (length (path (F := b32))) <= 9)%Z) by (simpl; lia).
  split; [split; [exact Hne|split; [lia|exact Hge]]|].
  exact (proj2 (PathFollowing_guard b32 b32_arith (demo_agent 100 100 1 0) path 9
                  pathWaypointRadius Hne ltac:(lia)) Hge).
Defined.

(** C8, counterexample.  The index -1 is outside of the range of the path
    of [main], which has 8 waypoints; it is not brought into range, and
    [path[-1]] is read. *)
Lemma PathFollowing_negative_index_counterexample :
  path (F := b32) <> [] /\
  ~ (0 <= -1 < Z.of_nat (length (path (F := b32))))%Z /\
  PathFollowing (demo_agent (F := b32) 100 100 1 0) path (-1) pathWaypointRadius
  = None.
Proof.
  assert (Hne : path (F := b32) <> []) by discriminate.
  split; [exact Hne|]. split; [lia|].
  now apply PathFollowing_negative_index.
Qed.

(** ** Boundary policies *)

Section Boundaries.

Local Open Scope R_scope.

Ltac decide_tests :=
  repeat match goal with
  | |- context [Rltb ?a ?b] =>
      lazymatch a with context [Rltb _ _] => fail | _ => idtac end;
      lazymatch b with context [Rltb _ _] => fail | _ => idtac end;
      let E := fresh "E" in
      destruct (Rltb a b) eqn:E;
      [apply Rltb_true in E|apply Rltb_false in E]
  end.

(** C9.  Single-agent branch: the new position is [keep_inside] of the
    position after the velocity was added; each coordinate of it lies in
    [0, screenW] resp. [0, screenH], a coordinate below 0 becomes 0, one
    above the bound becomes the bound, one within stays.  Multi-agent
    branch: the new position is [wrap_around] of the position after the
    velocity was added; a coordinate below [-60] becomes the upper bound
    plus 60, one above the upper bound plus 60 becomes [-60], and one
    within [-60, bound + 60] stays. *)
Theorem boundary_policy (p : Vector2 R) (a : Agent R) (f : Vector2 R) :
  (pos (single_integrate a f)
   = keep_inside (Add (pos a) (vel (single_integrate a f))) /\
   0 <= x (keep_inside p) <= IZR screenW /\
   0 <= y (keep_inside p) <= IZR screenH /\
   (x p < 0 -> x (keep_inside p) = 0) /\
   (IZR screenW < x p -> x (keep_inside p) = IZR screenW) /\
   (0 <= x p <= IZR screenW -> x (keep_inside p) = x p) /\
   (y p < 0 -> y (keep_inside p) = 0) /\
   (IZR screenH < y p -> y (keep_inside p) = IZR screenH) /\
   (0 <= y p <= IZR screenH -> y (keep_inside p) = y p))
  /\
  (pos (agent_integrate a f)
   = wrap_around (Add (pos a) (vel (agent_integrate a f))) /\
   (x p < - 60 -> x (wrap_around p) = IZR screenW + 60) /\
   (IZR screenW + 60 < x p -> x (wrap_around p) = - 60) /\
   (- 60 <= x p <= IZR screenW + 60 -> x (wrap_around p) = x p) /\
   (y p < - 60 -> y (wrap_around p) = IZR screenH + 60) /\
   (IZR screenH + 60 < y p -> y (wrap_around p) = - 60) /\
   (- 60 <= y p <= IZR screenH + 60 -> y (wrap_around p) = y p)).
Proof.
  split.
  - split; [reflexivity|].
    unfold keep_inside, screenW, screenH. real_eval.
    repeat split; intros; decide_tests; lra.
  - split; [reflexivity|].
    unfold wrap_around, screenW, screenH. real_eval.
    repeat split; intros; decide_tests; lra.
Qed.

Lemma boundary_policy_witness :
  (x (vec (F := R) (-61) 500) < - 60 /\ IZR screenH < y (vec (F := R) 10 1001)) /\
  x (wrap_around (vec (-61) 500)) = IZR screenW + 60 /\
  y (keep_inside (vec 10 1001)) = IZR screenH.
Proof.
  assert (H1 : x (vec (F := R) (-61) 500) < - 60) by (real_eval; lra).
  assert (H2 : IZR screenH < y (vec (F := R) 10 1001))
    by (unfold screenH; real_eval; lra).
  split; [split; assumption|]. split.
  - exact (proj1 (proj2 (proj2
      (boundary_policy (vec (-61) 500) (demo_agent 0 0 0 0) zero))) H1).
  - exact (proj1 (proj2 (proj2 (proj2 (proj2 (proj2 (proj2 (proj2 (proj1
      (boundary_policy (vec 10 1001) (demo_agent 0 0 0 0) zero))))))))) H2).
Defined.

End Boundaries.

(** ** The runs of the examples in binary32

    The inputs at which the real arithmetic was evaluated above give the
    same results when the code is evaluated in binary32. *)

Section Binary32Runs.

Example Separation_coincident_peer_b32 :
  Separation (Some 0%nat) (demo_agent (F := b32) 100 100 1 0)
    [demo_agent 100 100 1 0; demo_agent 100 100 (-1) 1]
    separationRadius separationStrength
  = zero.
Proof. vm_compute. reflexivity. Qed.

Example ObstacleAvoidance_both_inside_b32 :
  ObstacleAvoidance (demo_agent (F := b32) 0 3 0 0) [vec 0 0] [of_int 2]
    (of_int 9) (of_int 1)
  = Some (vec 0 (-1)).
Proof. vm_compute. reflexivity. Qed.

Example PredictiveAvoidance_coincident_b32 :
  PredictiveAvoidance (demo_agent (F := b32) 100 100 1 0) (demo_agent 101 100 0 0)
    (of_int 1) (of_int 1)
  = zero.
Proof. vm_compute. reflexivity. Qed.

Example Arrive_small_radius_b32 :
  flt (lit 1 4) (Length (Sub {| x := lit 5 4; y := of_int 0 |} (vec (F := b32) 0 0)))
  = true /\
  Arrive (vec (F := b32) 0 0) {| x := lit 5 4; y := of_int 0 |} (of_int 1) (lit 1 4)
  = zero.
Proof. split; vm_compute; reflexivity. Qed.

(** Rounding is outside of the real arithmetic: in binary32 the computed
    length of [Limit v max] can come out one unit in the last place above
    [max]. *)
Example Limit_rounding_b32 :
  flt (lit 24 1) (Length (Limit (vec (F := b32) 1 4) (lit 24 1))) = true.
Proof. vm_compute. reflexivity. Qed.

(** The same for [Arrive] beyond the slowing radius: the result is longer
    than [maxSpeed = 2.4f], in exact arithmetic on the float values. *)
Example Arrive_rounding_b32 :
  exact_longer (Arrive (vec (F := b32) 0 0) (vec 1 4) (lit 24 1) (of_int 1))
    (lit 24 1) = true.
Proof. vm_compute. reflexivity. Qed.

(** The lower threshold of [PredictiveAvoidance] is the float 0.001f: at a
    predicted distance of exactly 0.001f, which is above the real number
    0.001, the test [dist > 0.001f] fails and the force is zero. *)
Example PredictiveAvoidance_threshold_b32 :
  Length (Sub (predicted {| pos := {| x := lit 1 3; y := of_int 0 |};
                           vel := zero; acc := zero; maxSpeed := of_int 1;
                           maxForce := of_int 1; pathIndex := 0 |} (of_int 1))
            (predicted (demo_agent (F := b32) 0 0 0 0) (of_int 1)))
  = lit 1 3 /\
  PredictiveAvoidance
    {| pos := {| x := lit 1 3; y := of_int 0 |};
       vel := zero; acc := zero; maxSpeed := of_int 1;
       maxForce := of_int 1; pathIndex := 0 |}
    (demo_agent (F := b32) 0 0 0 0) (of_int 1) (of_int 1)
  = zero.
Proof. split; vm_compute; reflexivity. Qed.

End Binary32Runs.

(** * Further properties of the code *)

(** ** Vector helpers *)

Section VectorFacts.

Local Open Scope R_scope.

Lemma Vector2_ext (a b : Vector2 R) : x a = x b -> y a = y b -> a = b.
Proof. destruct a, b; cbn; intros; subst; reflexivity. Qed.

Lemma Length_zero_components (v : Vector2 R) :
  Length v = 0 -> x v = 0 /\ y v = 0.
Proof.
  rewrite Length_real. intros H.
  apply sqrt_eq_0 in H; [|nra]. split; nra.
Qed.

Lemma Length_zero_is_zero (v : Vector2 R) : Length v = 0 -> v = zero.
Proof.
  intros H. destruct (Length_zero_components v H) as [Hx Hy].
  apply Vector2_ext; cbn; assumption.
Qed.

Lemma Scale_zero (s : R) : Scale (zero (F := R)) s = zero.
Proof. apply Vector2_ext; cbn; ring. Qed.




Lemma Normalize_zero_length (v : Vector2 R) : Length v = 0 -> Normalize v = zero.
Proof.
  intros H. unfold Normalize. real_consts.
  now rewrite H, (proj2 (Reqb_true 0 0) eq_refl).
Qed.


Lemma Limit_within (v : Vector2 R) (max : R) : Length v <= max -> Limit v max = v.
Proof.
  intros H. unfold Limit. real_consts.
  now rewrite (proj2 (Rltb_false _ _) H).
Qed.

Lemma Limit_clipped (v : Vector2 R) (max : R) :
  max < Length v -> Limit v max = Scale v (max / Length v).
Proof.
  intros H. unfold Limit. real_consts.
  now rewrite (proj2 (Rltb_true _ _) H).
Qed.

Lemma Length_Limit_clipped (v : Vector2 R) (max : R) :
  0 <= max -> max < Length v -> Length (Limit v max) = max.
Proof.
  intros Hmax H. rewrite Limit_clipped by exact H.
  rewrite Length_Scale, Rabs_right.
  - field. lra.
  - apply Rle_ge, Rmult_le_pos; [lra|].
    left. apply Rinv_0_lt_compat. lra.
Qed.

Lemma Add_zero_r (p : Vector2 R) (T : R) : Add p (Scale zero T) = p.
Proof. apply Vector2_ext; cbn; ring. Qed.

End VectorFacts.

(** ** Single-agent behaviours *)

(** X4.  In every arithmetic, for a target that does not move.  With [T]
    the look-ahead time as the code computes it,
    [dist / (maxSpeed + 0.0001f) * predictionFactor]: when [0 * T] is 0 (in
    binary32: [T] is a number, not infinite and not negative) and adding 0
    leaves the coordinates of the target as they are, the prediction of
    [Pursue] and [Evade] is the target itself, [Pursue] is [Seek] and
    [Evade] is [Flee]. *)
Theorem Pursue_Evade_static_target (F : Type) (AF : Arith F)
    (p targetPos : Vector2 F) (s predictionFactor : F) :
  let T := fmul (fdiv (Length (Sub targetPos p)) (fadd s (lit 1 4)))
             predictionFactor in
  fmul (of_int 0) T = of_int 0 ->
  fadd (x targetPos) (of_int 0) = x targetPos ->
  fadd (y targetPos) (of_int 0) = y targetPos ->
  Pursue p targetPos zero s predictionFactor = Seek p targetPos s /\
  Evade p targetPos zero s predictionFactor = Flee p targetPos s.
Proof.
  cbv zeta. intros HT Hx Hy.
  assert (Hfuture :
    Add targetPos
      (Scale zero
         (fmul (fdiv (Length (Sub targetPos p)) (fadd s (lit 1 4)))
            predictionFactor))
    = targetPos).
  { unfold Add, Scale, zero. cbn [x y]. rewrite HT, Hx, Hy.
    destruct targetPos; reflexivity. }
  unfold Pursue, Evade. cbv zeta. now rewrite Hfuture.
Qed.

Lemma Pursue_Evade_static_target_witness :
  (fmul (of_int 0)
     (fmul (fdiv (Length (Sub (vec 300 400) (vec (F := b32) 0 0)))
              (fadd (of_int 3) (lit 1 4)))
        (lit 5 1)) = of_int 0 /\
   fadd (x (vec (F := b32) 300 400)) (of_int 0) = x (vec (F := b32) 300 400) /\
   fadd (y (vec (F := b32) 300 400)) (of_int 0) = y (vec (F := b32) 300 400)) /\
  Pursue (vec (F := b32) 0 0) (vec 300 400) zero (of_int 3) (lit 5 1)
  = Seek (vec 0 0) (vec 300 400) (of_int 3).
Proof.
  assert (HT : fmul (of_int 0)
                 (fmul (fdiv (Length (Sub (vec 300 400) (vec (F := b32) 0 0)))
                          (fadd (of_int 3) (lit 1 4)))
                    (lit 5 1)) = of_int 0) by (vm_compute; reflexivity).
  assert (Hx : fadd (x (vec (F := b32) 300 400)) (of_int 0)
               = x (vec (F := b32) 300 400)) by (vm_compute; reflexivity).
  assert (Hy : fadd (y (vec (F := b32) 300 400)) (of_int 0)
               = y (vec (F := b32) 300 400)) by (vm_compute; reflexivity).
  split; [split; [exact HT|split; assumption]|].
  exact (proj1 (Pursue_Evade_static_target b32 b32_arith (vec 0 0) (vec 300 400)
                  (of_int 3) (lit 5 1) HT Hx Hy)).
Defined.

(** In binary32, for [maxSpeed = -0.0001f] the look-ahead time is infinite
    and [0 * T] is not a number: [Pursue] of a target that does not move
    is then not [Seek]. *)
Example Pursue_static_target_infinite_b32 :
  Pursue (vec (F := b32) 0 0) (vec 300 400) zero (fneg (lit 1 4)) (lit 5 1)
  = {| x := S754_nan; y := S754_nan |} /\
  Seek (vec (F := b32) 0 0) (vec 300 400) (fneg (lit 1 4))
  <> {| x := S754_nan; y := S754_nan |}.
Proof. split; [vm_compute; reflexivity|vm_compute; discriminate]. Qed.

(** ** Pairwise forces, further *)

Section PairwiseFurther.

Local Open Scope R_scope.



End PairwiseFurther.

(** X7.  In every arithmetic in which the length of the zero vector tests
    below 0.0001f (binary32, the reals): [Separation] returns the zero
    vector when no element of the vector counts, that is when every
    element is [self] or fails one of the tests [d > 0], [d < radius] on
    its distance; so also for the empty vector. *)
Theorem Separation_no_neighbour (F : Type) (AF : Arith F) (self_at : option nat)
    (self : Agent F) (agents : list (Agent F)) (radius strength : F) :
  flt (Length (zero (F := F))) (lit 1 4) = true ->
  ((forall j other, nth_error agents j = Some other ->
      Separation_counts self_at self radius j other = false) ->
   Separation self_at self agents radius strength = zero) /\
  Separation self_at self [] radius strength = zero.
Proof.
  intros Hzero.
  assert (Hnone : forall (l : list (Agent F)) (k : nat) (st : Vector2 F * Z),
    (forall j other, nth_error l j = Some other ->
       Separation_counts self_at self radius (k + j) other = false) ->
    Separation_loop self_at self radius k l st = st).
  { induction l as [|other rest IH]; intros k st Hall; [reflexivity|].
    cbn [Separation_loop]. rewrite Separation_visit_counts.
    pose proof (Hall 0%nat other eq_refl) as H0. rewrite Nat.add_0_r in H0.
    rewrite H0. apply IH.
    intros j o Hj. specialize (Hall (S j) o Hj).
    now rewrite Nat.add_succ_r in Hall. }
  assert (Hres : forall l,
    (forall j other, nth_error l j = Some other ->
       Separation_counts self_at self radius j other = false) ->
    Separation self_at self l radius strength = zero).
  { intros l Hall. unfold Separation.
    rewrite (Hnone l 0%nat (zero, 0%Z)) by exact Hall.
    cbn [Z.gtb Z.compare]. now rewrite Hzero. }
  split; [apply Hres|].
  apply Hres. intros [|j] other H; discriminate H.
Qed.

Lemma Separation_no_neighbour_witness :
  (flt (Length (zero (F := b32))) (lit 1 4) = true /\
   forall j other,
     nth_error [demo_agent (F := b32) 0 0 1 0; demo_agent 300 400 0 0] j = Some other ->
     Separation_counts (Some 0%nat) (demo_agent 0 0 1 0) separationRadius j other
     = false) /\
  Separation (Some 0%nat) (demo_agent (F := b32) 0 0 1 0)
    [demo_agent 0 0 1 0; demo_agent 300 400 0 0]
    separationRadius separationStrength = zero.
Proof.
  assert (Hzero : flt (Length (zero (F := b32))) (lit 1 4) = true)
    by (vm_compute; reflexivity).
  assert (Hall : forall j other,
    nth_error [demo_agent (F := b32) 0 0 1 0; demo_agent 300 400 0 0] j = Some other ->
    Separation_counts (Some 0%nat) (demo_agent 0 0 1 0) separationRadius j other
    = false).
  { intros [|[|j]] other H.
    - reflexivity.
    - inversion H; subst other. vm_compute. reflexivity.
    - destruct j; discriminate H. }
  split; [split; assumption|].
  exact (proj1 (Separation_no_neighbour b32 b32_arith (Some 0%nat)
                  (demo_agent 0 0 1 0) [demo_agent 0 0 1 0; demo_agent 300 400 0 0]
                  separationRadius separationStrength Hzero) Hall).
Defined.

(** ** [ObstacleAvoidance], [WallAvoidance], further *)

Section ObstacleRange.

Context {F : Type} {AF : Arith F}.

Lemma ObstacleAvoidance_loop_short (agent : Agent F) (ahead : Vector2 F)
    (avoidStrength : F) (centers : list (Vector2 F)) :
  forall (radii : list F) (steer : Vector2 F),
    (length radii < length centers)%nat ->
    ObstacleAvoidance_loop agent ahead avoidStrength centers radii steer = None.
Proof.
  induction centers as [|c cs IH]; intros radii steer Hlen; simpl in *; [lia|].
  destruct radii as [|r0 rs]; [reflexivity|].
  apply IH. simpl in Hlen. lia.
Qed.

End ObstacleRange.

(** X8.  In every arithmetic: [ObstacleAvoidance] reads [obsRadii] out of
    range exactly when [obsRadii] is shorter than [obsCenters]; radii
    beyond the number of centres are not read. *)
Theorem ObstacleAvoidance_range (F : Type) (AF : Arith F) (agent : Agent F)
    (obsCenters : list (Vector2 F)) (obsRadii : list F) (lookAhead avoidStrength : F) :
  (ObstacleAvoidance agent obsCenters obsRadii lookAhead avoidStrength = None
   <-> (length obsRadii < length obsCenters)%nat) /\
  ObstacleAvoidance agent obsCenters obsRadii lookAhead avoidStrength
  = ObstacleAvoidance agent obsCenters (firstn (length obsCenters) obsRadii)
      lookAhead avoidStrength.
Proof.
  split.
  - split.
    + intros Hnone.
      destruct (Nat.lt_ge_cases (length obsRadii) (length obsCenters))
        as [Hlt|Hge]; [exact Hlt|].
      destruct (ObstacleAvoidance_defined agent obsCenters obsRadii lookAhead
                  avoidStrength Hge) as [s Hs].
      congruence.
    + intros Hlt. unfold ObstacleAvoidance.
      now rewrite ObstacleAvoidance_loop_short.
  - unfold ObstacleAvoidance. f_equal.
    generalize (zero (F := F)) as steer. revert obsRadii.
    induction obsCenters as [|c cs IH]; intros [|r0 rs] steer; simpl;
      try reflexivity.
    apply IH.
Qed.

Lemma ObstacleAvoidance_range_witness :
  (length [of_int (F := b32) 60] < length [vec (F := b32) 500 320; vec 300 380])%nat /\
  ObstacleAvoidance (demo_agent (F := b32) 100 100 1 0)
    [vec 500 320; vec 300 380] [of_int 60] obstacleLookAhead obstacleStrength = None.
Proof.
  assert (Hlt : (length [of_int (F := b32) 60]
                 < length [vec (F := b32) 500 320; vec 300 380])%nat)
    by (simpl; lia).
  split; [exact Hlt|].
  exact (proj2 (proj1 (ObstacleAvoidance_range b32 b32_arith
                         (demo_agent 100 100 1 0) [vec 500 320; vec 300 380]
                         [of_int 60] obstacleLookAhead obstacleStrength)) Hlt).
Defined.

Section ObstacleClear.

Context {F : Type} {AF : Arith F}.

Lemma ObstacleAvoidance_loop_clear (agent : Agent F) (ahead : Vector2 F)
    (avoidStrength : F) (centers : list (Vector2 F)) :
  forall (radii : list F) (steer : Vector2 F),
    length centers = length radii ->
    Forall (fun cr =>
              flt (Length (Sub ahead (fst cr))) (fadd (snd cr) (of_int 8)) = false /\
              flt (Length (Sub (pos agent) (fst cr))) (fadd (snd cr) (of_int 8))
              = false)
      (combine centers radii) ->
    ObstacleAvoidance_loop agent ahead avoidStrength centers radii steer = Some steer.
Proof.
  induction centers as [|c cs IH]; intros [|r0 rs] steer Hlen Hall;
    cbn [length combine ObstacleAvoidance_loop] in *; try discriminate;
    [reflexivity|].
  inversion Hall as [|cr crs [Ha Hn] Hrest]; subst. cbn [fst snd] in *.
  assert (Hv : ObstacleAvoidance_visit agent ahead avoidStrength c r0 steer = steer).
  { unfold ObstacleAvoidance_visit. now rewrite Ha, Hn. }
  rewrite Hv. apply IH; [congruence|exact Hrest].
Qed.

End ObstacleClear.

(** X9.  In every arithmetic in which the length of the zero vector tests
    below 0.001f (binary32, the reals): [ObstacleAvoidance] returns the
    zero vector when, for every obstacle, neither the look-ahead point nor
    the current position passes the test of being inside the buffered
    radius [obsRadius + 8]; so also when there is no obstacle. *)
Theorem ObstacleAvoidance_clear (F : Type) (AF : Arith F) (agent : Agent F)
    (obsCenters : list (Vector2 F)) (obsRadii : list F) (lookAhead avoidStrength : F) :
  flt (Length (zero (F := F))) (lit 1 3) = true ->
  length obsCenters = length obsRadii ->
  Forall (fun cr =>
            flt (Length (Sub (ahead_point agent lookAhead) (fst cr)))
              (fadd (snd cr) (of_int 8)) = false /\
            flt (Length (Sub (pos agent) (fst cr))) (fadd (snd cr) (of_int 8))
            = false)
    (combine obsCenters obsRadii) ->
  ObstacleAvoidance agent obsCenters obsRadii lookAhead avoidStrength = Some zero.
Proof.
  intros Hzero Hlen Hall. unfold ObstacleAvoidance.
  rewrite ObstacleAvoidance_loop_clear by assumption.
  cbn [obind]. now rewrite Hzero.
Qed.

Lemma ObstacleAvoidance_clear_witness :
  (flt (Length (zero (F := b32))) (lit 1 3) = true /\
   length (obsCenters (F := b32)) = length (obsRadii (F := b32)) /\
   Forall (fun cr =>
             flt (Length (Sub (ahead_point (demo_agent (F := b32) 100 900 1 0)
                                 obstacleLookAhead) (fst cr)))
               (fadd (snd cr) (of_int 8)) = false /\
             flt (Length (Sub (pos (demo_agent (F := b32) 100 900 1 0)) (fst cr)))
               (fadd (snd cr) (of_int 8)) = false)
     (combine obsCenters obsRadii)) /\
  ObstacleAvoidance (demo_agent (F := b32) 100 900 1 0) obsCenters obsRadii
    obstacleLookAhead obstacleStrength = Some zero.
Proof.
  assert (Hzero : flt (Length (zero (F := b32))) (lit 1 3) = true)
    by (vm_compute; reflexivity).
  assert (Hall : Forall (fun cr =>
             flt (Length (Sub (ahead_point (demo_agent (F := b32) 100 900 1 0)
                                 obstacleLookAhead) (fst cr)))
               (fadd (snd cr) (of_int 8)) = false /\
             flt (Length (Sub (pos (demo_agent (F := b32) 100 900 1 0)) (fst cr)))
               (fadd (snd cr) (of_int 8)) = false)
     (combine obsCenters obsRadii))
    by (repeat constructor; vm_compute; reflexivity).
  split; [split; [exact Hzero|split; [reflexivity|exact Hall]]|].
  exact (ObstacleAvoidance_clear b32 b32_arith (demo_agent 100 900 1 0)
           obsCenters obsRadii obstacleLookAhead obstacleStrength Hzero eq_refl Hall).
Defined.

Section ObstacleBounds.

Local Open Scope R_scope.



End ObstacleBounds.

(** ** [PathFollowing], further *)

(** X11.  In every arithmetic.  For an empty path [PathFollowing] returns
    the zero vector and leaves the index.  For a path that is not empty and
    an index that is not negative, the index [i0] that is used is 0 when the
    index given is the size or more, and the index given otherwise; the
    index after the call is [(i0 + 1) mod size] when the agent is within
    [waypointRadius] of waypoint [i0], and [i0] otherwise; it is in range,
    and the vector returned is [Arrive] towards the waypoint of the index
    after the call, with slowing radius [waypointRadius * 2.5]. *)
Theorem PathFollowing_cycles (F : Type) (AF : Arith F) (a : Agent F)
    (path : list (Vector2 F)) (outIndex : Z) (waypointRadius : F) :
  PathFollowing a [] outIndex waypointRadius = Some (zero, outIndex) /\
  (path <> [] -> (0 <= outIndex)%Z ->
   let size := Z.of_nat (length path) in
   let i0 := if (outIndex >=? size)%Z then 0%Z else outIndex in
   exists waypoint target : Vector2 F,
     at_index path i0 = Some waypoint /\
     let idx :=
       if flt (Length (Sub waypoint (pos a))) waypointRadius
       then ((i0 + 1) mod size)%Z else i0 in
     (0 <= idx < size)%Z /\
     at_index path idx = Some target /\
     PathFollowing a path outIndex waypointRadius
     = Some (Arrive (pos a) target (maxSpeed a) (fmul waypointRadius (lit 25 1)), idx)).
Proof.
  split; [reflexivity|].
  intros Hne Hidx. cbv zeta. unfold PathFollowing.
  destruct path as [|p ps]; [congruence|].
  set (size := Z.of_nat (length (p :: ps))).
  assert (Hsize : (0 < size)%Z) by (unfold size; simpl; lia).
  set (i0 := if (outIndex >=? size)%Z then 0%Z else outIndex).
  assert (Hi0 : (0 <= i0 < size)%Z).
  { unfold i0. destruct (Z.geb_spec outIndex size); lia. }
  destruct (at_index_in_range _ (p :: ps) i0 Hi0) as [waypoint Hw].
  rewrite Hw. cbn [obind].
  assert (Hrem : Z.rem (i0 + 1) size = ((i0 + 1) mod size)%Z)
    by (apply Z.rem_mod_nonneg; lia).
  assert (Hi1 : (0 <= (i0 + 1) mod size < size)%Z)
    by (apply Z.mod_pos_bound; lia).
  destruct (flt (Length (Sub waypoint (pos a))) waypointRadius) eqn:E.
  - rewrite Hrem.
    destruct (at_index_in_range _ (p :: ps) _ Hi1) as [target Ht].
    rewrite Ht. cbn [obind].
    exists waypoint, target. rewrite E.
    split; [reflexivity|]. split; [exact Hi1|].
    split; [first [exact Ht|reflexivity]|reflexivity].
  - exists waypoint, waypoint. rewrite E.
    split; [reflexivity|]. split; [exact Hi0|].
    split; [first [exact Hw|reflexivity]|reflexivity].
Qed.

Lemma PathFollowing_cycles_witness :
  (path (F := b32) <> [] /\ (0 <= 7)%Z) /\
  exists desired,
    PathFollowing (demo_agent (F := b32) 100 350 0 0) path 7 pathWaypointRadius
    = Some (desired, 0%Z).
Proof.
  assert (Hne : path (F := b32) <> []) by discriminate.
  split; [split; [exact Hne|lia]|].
  destruct (proj2 (PathFollowing_cycles b32 b32_arith (demo_agent 100 350 0 0)
                     path 7 pathWaypointRadius) Hne ltac:(lia))
    as (waypoint & target & Hw & Hrange & Ht & Hrun).
  vm_compute in Hw. inversion Hw; subst waypoint. clear Hw.
  eexists. rewrite Hrun. apply f_equal, f_equal2; [reflexivity|].
  vm_compute. reflexivity.
Defined.


(** ** Combining behaviours, further *)

(** X13.  In every arithmetic: [PrioritySteering] returns either a force of
    the list whose magnitude passes the test [Length f > epsilon], with no
    force before it passing, or the zero vector, and then no force of the
    list passes the test. *)
Theorem PrioritySteering_result (F : Type) (AF : Arith F)
    (forces : list (Vector2 F)) (epsilon : F) :
  (exists pre f post,
     forces = pre ++ f :: post /\
     Forall (fun g => flt epsilon (Length g) = false) pre /\
     flt epsilon (Length f) = true /\
     PrioritySteering forces epsilon = f)
  \/
  (Forall (fun g => flt epsilon (Length g) = false) forces /\
   PrioritySteering forces epsilon = zero).
Proof.
  induction forces as [|g rest IH].
  - right. split; [constructor|reflexivity].
  - simpl. destruct (flt epsilon (Length g)) eqn:E.
    + left. exists [], g, rest. repeat split; auto.
    + destruct IH as [(pre & f & post & Heq & Hpre & Hf & Hres)|[Hall Hres]].
      * left. exists (g :: pre), f, post. subst rest.
        repeat split; auto.
      * right. split; [constructor; assumption|exact Hres].
Qed.


(** ** The loops of [main] *)

Section LoopInvariants.

Context {F : Type} {AF : Arith F}.

(** The loop over the agents keeps what every iteration keeps ([Q], per
    index) and establishes for all agents what an iteration establishes
    for its agent ([P]). *)
Lemma agents_loop_establishes (tg : Toggles) (Q P : nat -> Agent F -> Prop) :
  (forall s i a, nth_error s i = Some a -> Q i a ->
     exists a', agentStep tg s i = Some (set_nth s i a') /\ Q i a' /\ P i a') ->
  forall (n k : nat) (s : list (Agent F)),
    (forall j a, nth_error s j = Some a -> Q j a) ->
    (forall j a, (j < k)%nat -> nth_error s j = Some a -> P j a) ->
    (k + n <= length s)%nat ->
    exists s' : list (Agent F),
      agents_loop tg (seq k n) s = Some s' /\
      length s' = length s /\
      (forall j a, nth_error s' j = Some a -> Q j a) /\
      (forall j a, (j < k + n)%nat -> nth_error s' j = Some a -> P j a).
Proof.
  intros Hstep n. induction n as [|n IH]; intros k s HQ HP Hlen; simpl.
  - exists s. repeat split; auto.
    intros j a Hj. apply HP. lia.
  - destruct (nth_error s k) as [a|] eqn:Hnth;
      [|apply nth_error_None in Hnth; lia].
    destruct (Hstep s k a Hnth (HQ k a Hnth)) as (a' & Hrun & HQ' & HP').
    rewrite Hrun. cbn [obind].
    assert (Hk : (k < length s)%nat) by (apply nth_error_Some; congruence).
    destruct (IH (S k) (set_nth s k a')) as (s' & Hloop & Hl & HQs & HPs).
    + intros j b Hb. destruct (Nat.eq_dec j k) as [->|Hne].
      * rewrite nth_error_set_nth_eq in Hb by exact Hk.
        now inversion Hb; subst b.
      * rewrite nth_error_set_nth_neq in Hb by congruence. eauto.
    + intros j b Hj Hb. destruct (Nat.eq_dec j k) as [->|Hne].
      * rewrite nth_error_set_nth_eq in Hb by exact Hk.
        now inversion Hb; subst b.
      * rewrite nth_error_set_nth_neq in Hb by congruence.
        apply HP; [lia|exact Hb].
    + rewrite length_set_nth. lia.
    + exists s'. rewrite length_set_nth in Hl.
      repeat split; auto.
      intros j b Hj. apply HPs. lia.
Qed.

Lemma multiTick_establishes (tg : Toggles) (Q P : nat -> Agent F -> Prop)
    (agents : list (Agent F)) :
  (forall s i a, nth_error s i = Some a -> Q i a ->
     exists a', agentStep tg s i = Some (set_nth s i a') /\ Q i a' /\ P i a') ->
  (forall j a, nth_error agents j = Some a -> Q j a) ->
  exists agents' : list (Agent F),
    multiTick tg agents = Some agents' /\
    length agents' = length agents /\
    (forall j a, nth_error agents' j = Some a -> Q j a /\ P j a).
Proof.
  intros Hstep HQ.
  destruct (agents_loop_establishes tg Q P Hstep (length agents) 0 agents HQ)
    as (agents' & Hrun & Hlen & HQ' & HP').
  - intros j a Hj. lia.
  - lia.
  - exists agents'. split; [exact Hrun|]. split; [exact Hlen|].
    intros j a Hj. split; [now apply HQ'|].
    apply HP'; [|exact Hj].
    simpl. rewrite <- Hlen. apply nth_error_Some. congruence.
Qed.

(** An iteration keeps the limits of its agent and a path index that is
    not negative. *)
Lemma agentStep_keeps_index (tg : Toggles) (orig : list (Agent F))
    (s : list (Agent F)) (i : nat) (a : Agent F) :
  nth_error s i = Some a ->
  (0 <= pathIndex a)%Z /\
  option_map maxSpeed (nth_error orig i) = Some (maxSpeed a) /\
  option_map maxForce (nth_error orig i) = Some (maxForce a) ->
  exists a',
    agentStep tg s i = Some (set_nth s i a') /\
    ((0 <= pathIndex a')%Z /\
     option_map maxSpeed (nth_error orig i) = Some (maxSpeed a') /\
     option_map maxForce (nth_error orig i) = Some (maxForce a')) /\
    True.
Proof.
  intros Hnth (Hidx & Hs & Hf).
  destruct (agent_forces_defined tg s i a Hnth Hidx)
    as (a1 & f0 & Hrun & Hpos & Hvel & Hms1 & Hmf1 & Hpi).
  exists (agent_integrate a1 (Limit f0 (maxForce a))). split.
  - unfold agentStep. rewrite Hrun. cbn [obind]. now rewrite set_nth_set_nth.
  - cbn [agent_integrate set_pos set_vel pathIndex maxSpeed maxForce].
    rewrite Hms1, Hmf1. auto.
Qed.

End LoopInvariants.

Section StepLimits.

Context {F : Type} {AF : Arith F}.

(** An iteration leaves its agent with a velocity that [Limit] returned
    for the agent's [maxSpeed]. *)
Lemma agentStep_limits_velocity (tg : Toggles) (s : list (Agent F)) (i : nat)
    (a : Agent F) :
  nth_error s i = Some a -> (0 <= pathIndex a)%Z ->
  exists a',
    agentStep tg s i = Some (set_nth s i a') /\
    (0 <= pathIndex a')%Z /\
    exists v, vel a' = Limit v (maxSpeed a').
Proof.
  intros Hnth Hidx.
  destruct (agent_forces_defined tg s i a Hnth Hidx)
    as (a1 & f0 & Hrun & Hpos & Hvel & Hms1 & Hmf1 & Hpi).
  exists (agent_integrate a1 (Limit f0 (maxForce a))). split; [|split].
  - unfold agentStep. rewrite Hrun. cbn [obind]. now rewrite set_nth_set_nth.
  - exact Hpi.
  - exists (Add (vel a1) (Limit f0 (maxForce a))). reflexivity.
Qed.

End StepLimits.




(** X15.  In every arithmetic: when no path index of the agent vector is
    negative, the [while] loop runs through every list of frames (keys,
    mouse position and random value of each frame) without an out-of-range
    access, whatever the mode and the toggles; afterwards no path index is
    negative, the number of agents is the same, and every agent has the
    [maxSpeed] and [maxForce] it started with. *)
Theorem run_frames_never_faults (F : Type) (AF : Arith F) (LF : Libm F)
    (inputs : list (Keys * Vector2 F * Z)) (w : World (F := F)) :
  Forall (fun a => (0 <= pathIndex a)%Z) (agents w) ->
  exists w' : World (F := F),
    run_frames inputs w = Some w' /\
    Forall (fun a => (0 <= pathIndex a)%Z) (agents w') /\
    map maxSpeed (agents w') = map maxSpeed (agents w) /\
    map maxForce (agents w') = map maxForce (agents w).
Proof.
  revert w. induction inputs as [|[[k mouse] rnd] rest IH]; intros w Hidx.
  - exists w. repeat split; auto.
  - cbn [run_frames].
    assert (Hframe : exists w1,
      frame k mouse rnd w = Some w1 /\
      Forall (fun a => (0 <= pathIndex a)%Z) (agents w1) /\
      map maxSpeed (agents w1) = map maxSpeed (agents w) /\
      map maxForce (agents w1) = map maxForce (agents w)).
    { unfold frame. cbv zeta.
      destruct (singleAgentMode (toggles (handle_input k (ui w)))).
      - destruct (singleStep _ _ _ _ _ _) as [pl ang].
        eexists. split; [reflexivity|]. cbn [agents]. auto.
      - destruct (multiTick_establishes (toggles (handle_input k (ui w)))
                    (fun i a =>
                       (0 <= pathIndex a)%Z /\
                       option_map maxSpeed (nth_error (agents w) i) = Some (maxSpeed a) /\
                       option_map maxForce (nth_error (agents w) i) = Some (maxForce a))
                    (fun _ _ => True) (agents w))
          as (agents' & Hrun & Hlen & Hall).
        + intros s i a. apply agentStep_keeps_index.
        + intros j a Hj. rewrite Forall_forall in Hidx.
          split; [apply Hidx; eapply nth_error_In; eassumption|].
          now rewrite Hj.
        + rewrite Hrun. cbn [obind]. eexists. split; [reflexivity|].
          cbn [agents]. split; [|split].
          * apply Forall_forall. intros a Hin.
            destruct (In_nth_error _ _ Hin) as [j Hj].
            apply (Hall j a Hj).
          * apply nth_error_ext. intros j. rewrite !nth_error_map.
            destruct (nth_error agents' j) as [a|] eqn:Hj; cbn [option_map].
            -- destruct (Hall j a Hj) as [(_ & Hs & _) _]. now rewrite Hs.
            -- apply nth_error_None in Hj. rewrite Hlen in Hj.
               apply nth_error_None in Hj. now rewrite Hj.
          * apply nth_error_ext. intros j. rewrite !nth_error_map.
            destruct (nth_error agents' j) as [a|] eqn:Hj; cbn [option_map].
            -- destruct (Hall j a Hj) as [(_ & _ & Hf) _]. now rewrite Hf.
            -- apply nth_error_None in Hj. rewrite Hlen in Hj.
               apply nth_error_None in Hj. now rewrite Hj. }
    destruct Hframe as (w1 & Hrun & Hidx1 & Hs1 & Hf1).
    rewrite Hrun. cbn [obind].
    destruct (IH w1 Hidx1) as (w' & Hrest & Hidx' & Hs' & Hf').
    exists w'. split; [exact Hrest|]. split; [exact Hidx'|].
    split; congruence.
Qed.

Lemma run_frames_never_faults_witness :
  Forall (fun a => (0 <= pathIndex a)%Z) (agents demo_world) /\
  exists w' : World (F := R),
    run_frames [(no_key, vec 10 10, 0%Z); (no_key, vec 20 10, 5%Z)] demo_world
    = Some w' /\
    map maxSpeed (agents w') = map maxSpeed (agents demo_world).
Proof.
  assert (Hidx : Forall (fun a => (0 <= pathIndex a)%Z) (agents demo_world))
    by (repeat constructor; cbn; lia).
  split; [exact Hidx|].
  destruct (run_frames_never_faults R R_arith R_libm
              [(no_key, vec 10 10, 0%Z); (no_key, vec 20 10, 5%Z)] demo_world Hidx)
    as (w' & Hrun & _ & Hs & _).
  exists w'. split; assumption.
Defined.

Section TickInvariants.

Local Open Scope R_scope.





End TickInvariants.

(** X17.  In every arithmetic.  The agents of the set-up loop, for random
    values in the ranges that are asked of [GetRandomValue], start with a
    path index in [0, 8), as many agents as iterations; the first
    multi-agent tick on them, with any toggles, runs through without an
    out-of-range access and leaves the path indices not negative. *)
Theorem init_agents_first_tick (F : Type) (AF : Arith F) (tg : Toggles)
    (rs : list (Z * Z * Z * Z * Z * Z)) :
  Forall (randoms_in_range (F := F)) rs ->
  Forall (fun a : Agent F => (0 <= pathIndex a < 8)%Z) (init_agents rs) /\
  length (init_agents (F := F) rs) = length rs /\
  exists agents' : list (Agent F),
    multiTick tg (init_agents rs) = Some agents' /\
    length agents' = length rs /\
    Forall (fun a => (0 <= pathIndex a)%Z) agents'.
Proof.
  intros Hin.
  assert (Hinit : Forall (fun a : Agent F => (0 <= pathIndex a < 8)%Z)
                    (init_agents rs)).
  { unfold init_agents. apply Forall_map.
    eapply Forall_impl; [|exact Hin].
    intros [[[[[rx ry] rvx] rvy] rs0] rp] (_ & _ & _ & _ & _ & Hp).
    cbn [init_agent pathIndex]. cbn [length path] in Hp. lia. }
  assert (Hlen0 : length (init_agents (F := F) rs) = length rs)
    by (unfold init_agents; apply length_map).
  split; [exact Hinit|]. split; [exact Hlen0|].
  destruct (multiTick_establishes tg
              (fun _ a => (0 <= pathIndex a)%Z) (fun _ _ => True)
              (init_agents rs))
    as (agents' & Hrun & Hlen & Hall).
  - intros s i a Hnth Hidx.
    destruct (agentStep_limits_velocity tg s i a Hnth Hidx)
      as (a' & Hstep & Hidx' & _).
    exists a'. auto.
  - intros j a Hj. rewrite Forall_forall in Hinit.
    apply (Hinit a (nth_error_In _ _ Hj)).
  - exists agents'. split; [exact Hrun|]. split; [congruence|].
    apply Forall_forall. intros a Ha.
    destruct (In_nth_error _ _ Ha) as [j Hj]. apply (Hall j a Hj).
Qed.

Lemma init_agents_first_tick_witness :
  Forall (randoms_in_range (F := b32)) demo_randoms /\
  exists agents' : list (Agent b32),
    multiTick demo_toggles (init_agents demo_randoms) = Some agents' /\
    length agents' = length demo_randoms.
Proof.
  assert (Hin : Forall (randoms_in_range (F := b32)) demo_randoms).
  { repeat constructor;
      unfold randoms_in_range, random_in_range, screenW, screenH;
      cbn [length path]; lia. }
  split; [exact Hin|].
  destruct (proj2 (proj2 (init_agents_first_tick b32 b32_arith demo_toggles
                            demo_randoms Hin)))
    as (agents' & Hrun & Hlen & _).
  exists agents'. split; assumption.
Defined.


(** ** Input handling *)

(** X18.  The key handlers of one frame.  The mode after them is the mode
    before, switched when TAB was pressed.  [singleMode] stays within 1..6.
    When the mode after TAB is single-agent, the digit keys select a
    behaviour and leave the five enable flags of the multi-agent mode as
    they were; when it is multi-agent, they leave [singleMode] as it was.
    In multi-agent mode and without TAB, the same keys pressed in two
    frames leave everything as it was. *)
Theorem handle_input_cases (k : Keys) (u : Ui) :
  singleAgentMode (toggles (handle_input k u))
  = xorb (KEY_TAB k) (singleAgentMode (toggles u)) /\
  ((1 <= singleMode (toggles u) <= 6)%Z ->
   (1 <= singleMode (toggles (handle_input k u)) <= 6)%Z) /\
  (singleAgentMode (toggles (handle_input k u)) = true ->
   enablePathFollowing (toggles (handle_input k u)) = enablePathFollowing (toggles u) /\
   enableSeparation (toggles (handle_input k u)) = enableSeparation (toggles u) /\
   enablePredictiveAvoid (toggles (handle_input k u))
   = enablePredictiveAvoid (toggles u) /\
   enableObstacleAvoid (toggles (handle_input k u)) = enableObstacleAvoid (toggles u) /\
   enableWallAvoid (toggles (handle_input k u)) = enableWallAvoid (toggles u)) /\
  (singleAgentMode (toggles (handle_input k u)) = false ->
   singleMode (toggles (handle_input k u)) = singleMode (toggles u)) /\
  (KEY_TAB k = false -> singleAgentMode (toggles u) = false ->
   handle_input k (handle_input k u) = u).
Proof.
  destruct u as [[sam sm sc epf es epa eoa ewa up] dbg].
  destruct k as [tab k1 k2 k3 k4 k5 k6 kd kp kb].
  cbn [toggles KEY_TAB singleAgentMode singleMode enablePathFollowing
       enableSeparation enablePredictiveAvoid enableObstacleAvoid enableWallAvoid].
  split; [|split; [|split; [|split]]].
  - destruct tab, sam, k1, k2, k3, k4, k5, k6, kp, kb; reflexivity.
  - intros Hsm.
    destruct tab, sam, k1, k2, k3, k4, k5, k6, kp, kb; cbn; lia.
  - destruct tab, sam; cbn; intros Hmode;
      destruct k1, k2, k3, k4, k5, k6, kp, kb; cbn in Hmode |- *;
      try discriminate Hmode; repeat split.
  - destruct tab, sam; cbn; intros Hmode;
      destruct k1, k2, k3, k4, k5, k6, kp, kb; cbn in Hmode |- *;
      try discriminate Hmode; reflexivity.
  - intros -> ->.
    destruct k1, k2, k3, k4, k5, k6, kd, kp, kb; cbv -[negb];
      rewrite ?negb_involutive; reflexivity.
Qed.

Lemma handle_input_cases_witness :
  (KEY_TAB (mkKeys false true false true false false true true true false) = false /\
   singleAgentMode demo_toggles = false) /\
  handle_input (mkKeys false true false true false false true true true false)
    (handle_input (mkKeys false true false true false false true true true false)
       (mkUi demo_toggles true))
  = mkUi demo_toggles true.
Proof.
  split; [split; reflexivity|].
  exact (proj2 (proj2 (proj2 (proj2
    (handle_input_cases
       (mkKeys false true false true false false true true true false)
       (mkUi demo_toggles true))))) eq_refl eq_refl).
Defined.

(** ** One frame *)

Section FrameFacts.

Local Open Scope R_scope.





End FrameFacts.

(** ** Steps without a force *)

Section Coasting.

Local Open Scope R_scope.

Lemma Add_zero_right (p : Vector2 R) : Add p zero = p.
Proof. apply Vector2_ext; cbn; ring. Qed.

Lemma Sub_zero_zero : Sub (zero (F := R)) zero = zero.
Proof. apply Vector2_ext; cbn; ring. Qed.

Lemma Limit_zero (m : R) : Limit (zero (F := R)) m = zero.
Proof.
  destruct (Rlt_le_dec m (Length (zero (F := R)))) as [Hlt|Hle].
  - rewrite Limit_clipped by exact Hlt. apply Scale_zero.
  - now apply Limit_within.
Qed.

Lemma PrioritySteering_zeros (n : nat) :
  PrioritySteering (repeat (zero (F := R)) n) (lit 1 3) = zero.
Proof.
  induction n as [|n IH]; [reflexivity|].
  cbn [repeat PrioritySteering]. rewrite Length_zero. real_consts.
  now rewrite (proj2 (Rltb_false (1 / 1000) 0) ltac:(lra)).
Qed.

(** X21.  With the five behaviours of the multi-agent mode switched off,
    in priority and in weighted mode alike, the loop body applies no force
    to an agent whose [maxForce] is not negative: the agent keeps its
    velocity, limited to [maxSpeed], moves by it and is wrapped around;
    [acc] is reset and the path index is left as it is, also a negative
    one, since the path is not read. *)
Theorem agentStep_all_disabled (tg : Toggles) (agents : list (Agent R)) (i : nat)
    (a : Agent R) :
  enablePathFollowing tg = false -> enableSeparation tg = false ->
  enablePredictiveAvoid tg = false -> enableObstacleAvoid tg = false ->
  enableWallAvoid tg = false ->
  nth_error agents i = Some a ->
  0 <= maxForce a ->
  agentStep tg agents i
  = Some (set_nth agents i
            {| pos := wrap_around (Add (pos a) (Limit (vel a) (maxSpeed a)));
               vel := Limit (vel a) (maxSpeed a);
               acc := zero;
               maxSpeed := maxSpeed a;
               maxForce := maxForce a;
               pathIndex := pathIndex a |}).
Proof.
  intros Hp Hs Hpr Ho Hw Hnth Hmf.
  unfold agentStep, agent_forces.
  rewrite Hnth, Hp, Hs, Hpr, Ho, Hw. cbn [obind].
  rewrite !Scale_zero, !Add_zero_zero, !Limit_zero.
  assert (Hfinal :
    (if usePriority tg
     then PrioritySteering [zero; zero; zero] (lit 1 3)
     else WeightedBlend
            [(zero, lit 18 1); (zero, lit 14 1); (zero, lit 12 1);
             (zero, of_int 1); (zero, lit 9 1)]
            (maxForce (set_acc a zero))) = zero (F := R)).
  { destruct (usePriority tg).
    - apply (PrioritySteering_zeros 3).
    - unfold WeightedBlend. cbn [fold_left fst snd].
      rewrite !Scale_zero, !Add_zero_zero. apply Limit_zero. }
  rewrite Hfinal, Limit_zero, set_nth_set_nth.
  unfold agent_integrate. cbn [set_vel set_pos set_acc vel pos maxSpeed].
  now rewrite Add_zero_right.
Qed.

Lemma agentStep_all_disabled_witness :
  (nth_error [demo_agent (F := R) 100 100 1 0] 0 = Some (demo_agent 100 100 1 0) /\
   0 <= maxForce (demo_agent (F := R) 100 100 1 0)) /\
  exists a' : Agent R,
    agentStep (mkToggles false 1 false false false false false false true)
      [demo_agent 100 100 1 0] 0 = Some [a'] /\
    vel a' = Limit (vec 1 0) (lit 24 1).
Proof.
  assert (Hmf : 0 <= maxForce (demo_agent (F := R) 100 100 1 0))
    by (real_eval; lra).
  split; [split; [reflexivity|exact Hmf]|].
  eexists. split.
  - rewrite (agentStep_all_disabled
               (mkToggles false 1 false false false false false false true)
               [demo_agent 100 100 1 0] 0 (demo_agent 100 100 1 0)
               eq_refl eq_refl eq_refl eq_refl eq_refl eq_refl Hmf).
    reflexivity.
  - reflexivity.
Defined.

Lemma keep_inside_fixed (p : Vector2 R) :
  0 <= x p <= IZR screenW -> 0 <= y p <= IZR screenH -> keep_inside p = p.
Proof.
  unfold keep_inside, screenW, screenH. intros Hx Hy.
  apply Vector2_ext; real_eval;
    repeat match goal with
    | |- context [Rltb ?a ?b] =>
        lazymatch a with context [Rltb _ _] => fail | _ => idtac end;
        lazymatch b with context [Rltb _ _] => fail | _ => idtac end;
        let E := fresh "E" in
        destruct (Rltb a b) eqn:E;
        [apply Rltb_true in E|apply Rltb_false in E]
    end; lra.
Qed.

Lemma Arrive_at_target (p : Vector2 R) (s r : R) : Arrive p p s r = zero.
Proof. apply Arrive_within_epsilon. rewrite Length_Sub_self. lra. Qed.

Lemma Seek_at_target (p : Vector2 R) (s : R) : Seek p p s = zero.
Proof.
  unfold Seek. rewrite (Normalize_zero_length _ (Length_Sub_self p)).
  apply Scale_zero.
Qed.

(** X22.  The single agent has a rest state: in the behaviours Seek, Flee,
    Pursue, Evade and Arrive (combining off), a player whose limits are
    not negative and that stands still inside the screen with the mouse on
    it and at rest gets no force and stays where it is, with velocity zero
    and the wander angle as it was. *)
Theorem singleStep_rest_state (tg : Toggles) (pl : Agent R) (angle : R) (rnd : Z) :
  singleCombine tg = false -> (1 <= singleMode tg <= 5)%Z ->
  0 <= maxForce pl -> 0 <= maxSpeed pl ->
  vel pl = zero ->
  0 <= x (pos pl) <= IZR screenW -> 0 <= y (pos pl) <= IZR screenH ->
  pos (fst (singleStep tg pl angle (pos pl) zero rnd)) = pos pl /\
  vel (fst (singleStep tg pl angle (pos pl) zero rnd)) = zero /\
  snd (singleStep tg pl angle (pos pl) zero rnd) = angle.
Proof.
  intros Hc Hm Hmf Hms Hv Hx Hy.
  assert (Hsteer : single_steering tg pl angle (pos pl) zero rnd = (zero, angle)).
  { unfold single_steering. rewrite Hc.
    assert (Hflee : Flee (pos pl) (pos pl) (maxSpeed pl) = zero)
      by apply Seek_at_target.
    assert (Hcases : singleMode tg = 1%Z \/ singleMode tg = 2%Z \/
                     singleMode tg = 3%Z \/ singleMode tg = 4%Z \/
                     singleMode tg = 5%Z) by lia.
    destruct Hcases as [E|[E|[E|[E|E]]]]; rewrite E.
    - now rewrite Seek_at_target.
    - now rewrite Hflee.
    - unfold Pursue. cbv zeta. now rewrite Add_zero_r, Seek_at_target.
    - unfold Evade. cbv zeta. now rewrite Add_zero_r, Hflee.
    - now rewrite Arrive_at_target. }
  unfold singleStep. rewrite Hsteer. cbn [fst snd].
  rewrite pos_single_integrate, vel_single_integrate.
  unfold single_steerVec. rewrite Hv, Sub_zero_zero, Limit_zero.
  rewrite Add_zero_zero, Limit_zero, Add_zero_right.
  split; [now apply keep_inside_fixed|]. split; reflexivity.
Qed.

Lemma singleStep_rest_state_witness :
  (singleCombine (mkToggles true 5 false true true true true true true) = false /\
   0 <= maxForce (demo_agent (F := R) 500 400 0 0) /\
   0 <= maxSpeed (demo_agent (F := R) 500 400 0 0) /\
   vel (demo_agent (F := R) 500 400 0 0) = vec 0 0 /\
   0 <= x (pos (demo_agent (F := R) 500 400 0 0)) <= IZR screenW /\
   0 <= y (pos (demo_agent (F := R) 500 400 0 0)) <= IZR screenH) /\
  pos (fst (singleStep (mkToggles true 5 false true true true true true true)
              (demo_agent 500 400 0 0) 0 (pos (demo_agent 500 400 0 0)) zero 0))
  = pos (demo_agent (F := R) 500 400 0 0).
Proof.
  assert (Hmf : 0 <= maxForce (demo_agent (F := R) 500 400 0 0))
    by (real_eval; lra).
  assert (Hms : 0 <= maxSpeed (demo_agent (F := R) 500 400 0 0))
    by (real_eval; lra).
  assert (Hx : 0 <= x (pos (demo_agent (F := R) 500 400 0 0)) <= IZR screenW)
    by (unfold screenW; real_eval; lra).
  assert (Hy : 0 <= y (pos (demo_agent (F := R) 500 400 0 0)) <= IZR screenH)
    by (unfold screenH; real_eval; lra).
  split; [repeat split; try reflexivity; try assumption; try apply Hx; apply Hy|].
  exact (proj1 (singleStep_rest_state
                  (mkToggles true 5 false true true true true true true)
                  (demo_agent 500 400 0 0) 0 0 eq_refl ltac:(cbn; lia) Hmf Hms
                  eq_refl Hx Hy)).
Defined.

End Coasting.

